(** * Equality-constrained quadratic programming (jaxopt/_src/eq_qp.py)

    A shallow embedding of [_make_eq_qp_optimality_fun] and of the
    [EqualityConstrainedQP] solver class: the KKT residual, the saddle-point
    operator built inside [run], the solve orchestration and the optimality
    report.

    Floating-point arrays are idealised as real numbers.  The collaborators
    the file imports (tree_util, linear_operator, implicit_diff,
    cvxpy_wrapper, linear_solve, jax.grad / jax.vjp) are either interfaces
    (type classes, record fields) or definitions modelled from the
    specification; each such definition says so. *)

From Stdlib Require Import String.
From Stdlib Require Import Reals Lra Lia List ZArith Bool.
Import ListNotations.
#[local] Set Warnings "-register-all".
Open Scope R_scope.

Set Implicit Arguments.

(* ================================================================== *)
(** * Tree-structured values (jaxopt._src.tree_util) *)
(* ================================================================== *)

(** The structure of a pytree: array leaves with their shape, the empty
    tree [None], and tuples of subtrees. *)
Inductive PyTreeDef : Type :=
| LeafDef (shape : list nat)
| NoneDef
| TupleDef (children : list PyTreeDef).

(** Modelled from the spec: the tree-structured vector-space operations of
    tree_util (addition, subtraction, negation, scaling, inner product,
    zeros of the same structure), together with flattening to leaves and the
    tree structure.  tree_util.py is not among the source files. *)
Class TreeOps (T : Type) : Type := {
  tree_add : T -> T -> T;
  tree_sub : T -> T -> T;
  tree_negative : T -> T;
  tree_scalar_mul : R -> T -> T;
  tree_vdot : T -> T -> R;
  tree_zeros_like : T -> T;
  tree_leaves : T -> list R;
  tree_structure : T -> PyTreeDef }.

(** Sum of the squares of a list of reals. *)
Definition sum_squares (v : list R) : R :=
  fold_right Rplus 0 (map (fun a => a * a) v).

(** The Euclidean norm of a vector given by its components. *)
Definition euclidean_norm (v : list R) : R := sqrt (sum_squares v).

(** Modelled from the spec: tree_util.tree_l2_norm, the L2 norm over an
    arbitrarily nested numeric container: every leaf is squared, the squares
    are summed over the whole tree, and the square root is taken. *)
Definition tree_l2_norm {T : Type} {TT : TreeOps T} (tree_x : T) : R :=
  sqrt (fold_right Rplus 0 (map (fun a => a * a) (tree_leaves tree_x))).

(** A scalar (0-dimensional array) leaf. *)
#[export] Instance TreeOps_scalar : TreeOps R := {
  tree_add := Rplus;
  tree_sub := Rminus;
  tree_negative := Ropp;
  tree_scalar_mul := Rmult;
  tree_vdot := Rmult;
  tree_zeros_like := fun _ => 0;
  tree_leaves := fun a => [a];
  tree_structure := fun _ => LeafDef [] }.

(** Element-wise combination of two one-dimensional arrays. *)
Fixpoint map2 (f : R -> R -> R) (x y : list R) : list R :=
  match x, y with
  | a :: x', b :: y' => f a b :: map2 f x' y'
  | _, _ => []
  end.

(** jnp.vdot on one-dimensional arrays. *)
Fixpoint dot (x y : list R) : R :=
  match x, y with
  | a :: x', b :: y' => a * b + dot x' y'
  | _, _ => 0
  end.

(** A one-dimensional array leaf.  Where numpy would reject (or broadcast)
    two arrays of different lengths, the element-wise operations here stop
    at the shorter one; the theorems below only use them on conforming
    arrays. *)
#[export] Instance TreeOps_array : TreeOps (list R) := {
  tree_add := map2 Rplus;
  tree_sub := map2 Rminus;
  tree_negative := map Ropp;
  tree_scalar_mul := fun t => map (Rmult t);
  tree_vdot := dot;
  tree_zeros_like := map (fun _ => 0);
  tree_leaves := fun x => x;
  tree_structure := fun x => LeafDef [length x] }.

(** A tuple of two trees. *)
#[export] Instance TreeOps_pair {A B : Type} {TA : TreeOps A} {TB : TreeOps B}
  : TreeOps (A * B) := {
  tree_add := fun x y => (tree_add (fst x) (fst y), tree_add (snd x) (snd y));
  tree_sub := fun x y => (tree_sub (fst x) (fst y), tree_sub (snd x) (snd y));
  tree_negative := fun x => (tree_negative (fst x), tree_negative (snd x));
  tree_scalar_mul := fun t x =>
    (tree_scalar_mul t (fst x), tree_scalar_mul t (snd x));
  tree_vdot := fun x y =>
    tree_vdot (fst x) (fst y) + tree_vdot (snd x) (snd y);
  tree_zeros_like := fun x =>
    (tree_zeros_like (fst x), tree_zeros_like (snd x));
  tree_leaves := fun x => tree_leaves (fst x) ++ tree_leaves (snd x);
  tree_structure := fun x =>
    TupleDef [tree_structure (fst x); tree_structure (snd x)] }.

(** An optional subtree: [None] is the tree without leaves. *)
#[export] Instance TreeOps_option {A : Type} {TA : TreeOps A}
  : TreeOps (option A) := {
  tree_add := fun x y =>
    match x, y with Some a, Some b => Some (tree_add a b) | _, _ => None end;
  tree_sub := fun x y =>
    match x, y with Some a, Some b => Some (tree_sub a b) | _, _ => None end;
  tree_negative := option_map tree_negative;
  tree_scalar_mul := fun t => option_map (tree_scalar_mul t);
  tree_vdot := fun x y =>
    match x, y with Some a, Some b => tree_vdot a b | _, _ => 0 end;
  tree_zeros_like := option_map tree_zeros_like;
  tree_leaves := fun x =>
    match x with Some a => tree_leaves a | None => [] end;
  tree_structure := fun x =>
    match x with Some a => tree_structure a | None => NoneDef end }.

(* ================================================================== *)
(** * Differentiation (jax.grad, jax.vjp) *)
(* ================================================================== *)

(** jax.grad as an oracle: [grad f x] is the gradient of the scalar function
    [f] at [x].  What the oracle must satisfy is stated by [AutodiffLaws]
    below. *)
Class Autodiff (P : Type) : Type := { grad : (P -> R) -> P -> P }.

(** jax.vjp: the vector-Jacobian product of [f] at [x] with the cotangent
    [v] is the gradient at [x] of [y |-> <f y, v>]. *)
Definition vjp {P D : Type} {AD : Autodiff P} {TD : TreeOps D}
  (f : P -> D) (x : P) (v : D) : P :=
  grad (fun y => tree_vdot (f y) v) x.

(** [f] is, around [x], a polynomial of degree at most two whose linear part
    is [h |-> <g, h>]: [g] is then the gradient of [f] at [x]. *)
Definition quadratic_at {P : Type} {TP : TreeOps P}
  (f : P -> R) (x g : P) : Prop :=
  exists q : P -> R, forall (h : P) (t : R),
    f (tree_add x (tree_scalar_mul t h)) = f x + t * tree_vdot g h + t * t * q h.

(** Central differences: exact on polynomials of degree at most two. *)
#[export] Instance Autodiff_scalar : Autodiff R := {
  grad := fun f x => (f (x + 1) - f (x - 1)) / 2 }.

#[export] Instance Autodiff_pair {A B : Type} {DA : Autodiff A} {DB : Autodiff B}
  : Autodiff (A * B) := {
  grad := fun f x =>
    (grad (fun a => f (a, snd x)) (fst x), grad (fun b => f (fst x, b)) (snd x)) }.

(** [perturb x i d] adds [d] to the component of index [i]. *)
Fixpoint perturb (x : list R) (i : nat) (d : R) : list R :=
  match x, i with
  | [], _ => []
  | a :: x', O => (a + d) :: x'
  | a :: x', S j => a :: perturb x' j d
  end.

#[export] Instance Autodiff_array : Autodiff (list R) := {
  grad := fun f x =>
    map (fun i => (f (perturb x i 1) - f (perturb x i (-1))) / 2)
        (seq 0 (length x)) }.

(* ================================================================== *)
(** * Linear operators (jaxopt._src.linear_operator) *)
(* ================================================================== *)

(** Modelled from the spec: an Operator is an opaque capability with two
    operations, [apply] (its [__call__], the matvec) and the joint
    [matvec_and_rmatvec u v], which returns the image of [u] and the adjoint
    applied to [v] in one pass.  linear_operator.py is not among the source
    files. *)
Record LinearOperator (U V : Type) : Type := {
  apply :> U -> V;
  matvec_and_rmatvec : U -> V -> V * U }.

(** The adjoint action, as the joint call returns it. *)
Definition rmatvec {U V : Type} (A : LinearOperator U V) (u : U) (v : V) : U :=
  snd (matvec_and_rmatvec A u v).

(** Modelled from the spec: the operator of a callable [f(params, u)]; the
    wrapper derives the adjoint by reverse-mode differentiation of [f]. *)
Definition FunctionalLinearOperator {PM U V : Type}
  {AD : Autodiff U} {TV : TreeOps V}
  (f : PM -> U -> V) (params : PM) : LinearOperator U V := {|
  apply := f params;
  matvec_and_rmatvec := fun x y => (f params x, vjp (f params) x y) |}.

(** The interpretation of raw parameters as a dense matrix. *)
Class Dense (PM U V : Type) : Type := {
  DenseLinearOperator : PM -> LinearOperator U V }.

(** Modelled from the spec: make_operator(raw_or_callable).  Without a
    callable the raw parameters are a dense matrix; with one, the operator
    is the callable applied to its parameters. *)
Definition _make_linear_operator {PM U V : Type}
  {DM : Dense PM U V} {AD : Autodiff U} {TV : TreeOps V}
  (matvec : option (PM -> U -> V)) : PM -> LinearOperator U V :=
  match matvec with
  | None => DenseLinearOperator
  | Some f => FunctionalLinearOperator f
  end.

(** Number of columns of a matrix given by its rows. *)
Definition ncols (M : list (list R)) : nat :=
  match M with [] => O | row :: _ => length row end.

(** Number of rows. *)
Definition nrows (M : list (list R)) : nat := length M.

(** M u, row by row. *)
Definition dense_matvec (M : list (list R)) (u : list R) : list R :=
  map (fun row => dot row u) M.

(** M^T v: the combination of the rows with the coefficients [v], in the
    space of vectors with [n] components (the zero vector when M has no
    row). *)
Fixpoint dense_rmatvec (n : nat) (M : list (list R)) (v : list R) : list R :=
  match M, v with
  | row :: M', b :: v' => map2 Rplus (map (Rmult b) row) (dense_rmatvec n M' v')
  | _, _ => repeat 0 n
  end.

(** Modelled from the spec: a dense matrix as an operator; [apply] is the
    matrix-vector product and the joint call uses the transpose.  The
    adjoint image has as many components as the vector [u] the joint call
    is made at, also for a matrix without rows (no constraint). *)
#[export] Instance Dense_matrix : Dense (list (list R)) (list R) (list R) := {
  DenseLinearOperator := fun M => {|
    apply := dense_matvec M;
    matvec_and_rmatvec := fun u v =>
      (dense_matvec M u, dense_rmatvec (length u) M v) |} }.

(** A matrix with a single row [r] over any tree space: u |-> <r, u>. *)
#[export] Instance Dense_row {U : Type} {TU : TreeOps U} : Dense U U R := {
  DenseLinearOperator := fun r => {|
    apply := fun u => tree_vdot r u;
    matvec_and_rmatvec := fun u v => (tree_vdot r u, tree_scalar_mul v r) |} }.

(** A matrix with two rows [r1], [r2] over any tree space. *)
#[export] Instance Dense_two_rows {U : Type} {TU : TreeOps U}
  : Dense (U * U) U (R * R) := {
  DenseLinearOperator := fun M => {|
    apply := fun u => (tree_vdot (fst M) u, tree_vdot (snd M) u);
    matvec_and_rmatvec := fun u v =>
      ((tree_vdot (fst M) u, tree_vdot (snd M) u),
       tree_add (tree_scalar_mul (fst v) (fst M))
                (tree_scalar_mul (snd v) (snd M))) |} }.

(* ================================================================== *)
(** * Solutions and errors (jaxopt._src.base, cvxpy_wrapper) *)
(* ================================================================== *)

(** base.KKTSolution(primal, dual_eq, dual_ineq): the third component is
    optional. *)
Record KKTSolution (P D DI : Type) : Type := {
  primal : P;
  dual_eq : D;
  dual_ineq : option DI }.

(** base.OptStep(params, state). *)
Record OptStep (X : Type) : Type := {
  params : X;
  state : option unit }.

(** A KKT solution is a tuple of three trees. *)
#[export] Instance TreeOps_KKTSolution {P D DI : Type}
  {TP : TreeOps P} {TD : TreeOps D} {TI : TreeOps DI}
  : TreeOps (KKTSolution P D DI) := {
  tree_add := fun x y =>
    {| primal := tree_add (primal x) (primal y);
       dual_eq := tree_add (dual_eq x) (dual_eq y);
       dual_ineq := tree_add (dual_ineq x) (dual_ineq y) |};
  tree_sub := fun x y =>
    {| primal := tree_sub (primal x) (primal y);
       dual_eq := tree_sub (dual_eq x) (dual_eq y);
       dual_ineq := tree_sub (dual_ineq x) (dual_ineq y) |};
  tree_negative := fun x =>
    {| primal := tree_negative (primal x);
       dual_eq := tree_negative (dual_eq x);
       dual_ineq := tree_negative (dual_ineq x) |};
  tree_scalar_mul := fun t x =>
    {| primal := tree_scalar_mul t (primal x);
       dual_eq := tree_scalar_mul t (dual_eq x);
       dual_ineq := tree_scalar_mul t (dual_ineq x) |};
  tree_vdot := fun x y =>
    tree_vdot (primal x) (primal y) + tree_vdot (dual_eq x) (dual_eq y)
    + tree_vdot (dual_ineq x) (dual_ineq y);
  tree_zeros_like := fun x =>
    {| primal := tree_zeros_like (primal x);
       dual_eq := tree_zeros_like (dual_eq x);
       dual_ineq := tree_zeros_like (dual_ineq x) |};
  tree_leaves := fun x =>
    tree_leaves (primal x) ++ tree_leaves (dual_eq x)
    ++ tree_leaves (dual_ineq x);
  tree_structure := fun x =>
    TupleDef [tree_structure (primal x); tree_structure (dual_eq x);
              tree_structure (dual_ineq x)] }.

(** What validation raises: the operand whose shape disagrees, its shape,
    and the shape of the matrix it is checked against. *)
Inductive exn : Type :=
| ShapeMismatch (operand : string) (operand_shape matrix_shape : list nat).

(** Modelled from the spec: cvxpy_wrapper._check_params on dense parameters.
    It raises ShapeMismatch when c's space disagrees with Q's domain or b's
    space disagrees with A's range.  cvxpy_wrapper.py is not among the source
    files. *)
Definition cvxpy_wrapper_check_params
  (params_obj : list (list R) * list R) (params_eq : list (list R) * list R)
  : exn + unit :=
  let '(Q, c) := params_obj in
  let '(A, b) := params_eq in
  if negb (Nat.eqb (length c) (ncols Q)) then
    inl (ShapeMismatch "c" [length c] [nrows Q; ncols Q])
  else if negb (Nat.eqb (length b) (nrows A)) then
    inl (ShapeMismatch "b" [length b] [nrows A; ncols A])
  else inr tt.

(* ================================================================== *)
(** * Effects: call traces, errors and the solver object *)
(* ================================================================== *)

Class Monad (m : Type -> Type) : Type := {
  ret : forall {X : Type}, X -> m X;
  bind : forall {X Y : Type}, m X -> (X -> m Y) -> m Y }.

Notation "x <- c1 ;; c2" := (bind c1 (fun x => c2))
  (at level 61, c1 at next level, right associativity).
Notation "' pat <- c1 ;; c2" :=
  (bind c1 (fun x => match x with pat => c2 end))
  (at level 61, pat pattern, c1 at next level, right associativity).
Notation "c1 ;; c2" := (bind c1 (fun _ => c2))
  (at level 61, right associativity).

Section EqQP.

(** Raw parameters of Q and of A, the primal and dual spaces, and the space
    of inequality multipliers (never inhabited by this solver's output). *)
Context {PQ PA P D DI : Type}.
Context {TP : TreeOps P} {TD : TreeOps D} {TI : TreeOps DI}.
Context {AD : Autodiff P}.
Context {DQ : Dense PQ P P} {DA : Dense PA P D}.

(** ** The KKT residual *)

(** Modelled from the spec: implicit_diff.make_kkt_optimality_fun with
    ineq_fun=None, the generic KKT-assembly step.  It composes the gradient
    of the objective with the constraint-Jacobian contribution (the
    vector-Jacobian product of the equality function with the multiplier)
    into the stationarity residual, pairs it with the equality function as
    the feasibility residual, and contributes no inequality residual.
    implicit_diff.py is not among the source files. *)
Definition make_kkt_optimality_fun {PO PE : Type}
  (obj_fun : P -> PO -> R) (eq_fun : P -> PE -> D)
  (params : KKTSolution P D DI) (params_obj : PO) (params_eq : PE)
  (params_ineq : option unit) : KKTSolution P D DI :=
  let primal_var := primal params in
  let eq_dual_var := dual_eq params in
  let stationarity :=
    tree_add (grad (fun x => obj_fun x params_obj) primal_var)
             (vjp (fun x => eq_fun x params_eq) primal_var eq_dual_var) in
  let primal_feasability := eq_fun primal_var params_eq in
  {| primal := stationarity; dual_eq := primal_feasability; dual_ineq := None |}.

(** [obj_fun] of [_make_eq_qp_optimality_fun]. *)
Definition obj_fun (matvec_Q : PQ -> LinearOperator P P)
  (primal_var : P) (params_obj : PQ * P) : R :=
  let '(params_Q, c) := params_obj in
  let Q := matvec_Q params_Q in
  0.5 * tree_vdot primal_var (Q primal_var) + tree_vdot primal_var c.

(** [eq_fun] of [_make_eq_qp_optimality_fun]. *)
Definition eq_fun (matvec_A : PA -> LinearOperator P D)
  (primal_var : P) (params_eq : PA * D) : D :=
  let '(params_A, b) := params_eq in
  let A := matvec_A params_A in
  tree_sub (A primal_var) b.

(** [_make_eq_qp_optimality_fun matvec_Q matvec_A] is the function
    [optimality_fun(params, params_obj, params_eq)]. *)
Definition _make_eq_qp_optimality_fun
  (matvec_Q : PQ -> LinearOperator P P) (matvec_A : PA -> LinearOperator P D)
  : KKTSolution P D DI -> PQ * P -> PA * D -> KKTSolution P D DI :=
  let optimality_fun_with_ineq :=
    make_kkt_optimality_fun (obj_fun matvec_Q) (eq_fun matvec_A) in
  fun params params_obj params_eq =>
    optimality_fun_with_ineq params params_obj params_eq None.

(** ** Calls to collaborators *)

(** The calls made on the instantiated operators. *)
Inductive op_call : Type :=
| call_Q (u : P)
| call_A_matvec_and_rmatvec (u : P) (v : D).

(** The calls a method of the solver makes to its collaborators, in order:
    validation, instantiation of the two operators, the linear solver, and
    the operator calls made while the linear solver runs. *)
Inductive event : Type :=
| ev_check_params (params_obj : PQ * P) (params_eq : PA * D)
| ev_matvec_Q (params_Q : PQ)
| ev_matvec_A (params_A : PA)
| ev_solve (rhs : P * D) (tol : R) (maxiter : Z)
| ev_op (c : op_call).

(** A computation that logs the operator calls it makes. *)
Definition W (X : Type) : Type := (X * list op_call)%type.

#[export] Instance Monad_W : Monad W := {
  ret := fun X x => (x, []);
  bind := fun X Y m k => let r := k (fst m) in (fst r, snd m ++ snd r) }.

(** [logged c x]: the operator call [c] is made and returns [x]. *)
Definition logged {X : Type} (c : op_call) (x : X) : W X := (x, [c]).

(** A pluggable linear solver: solve(matvec, rhs, tol, maxiter). *)
Definition LinearSolver : Type :=
  (P * D -> W (P * D)) -> P * D -> R -> Z -> W (P * D).

(** The attributes of an [EqualityConstrainedQP] object once
    [__post_init__] has run. *)
Record EqualityConstrainedQP : Type := {
  matvec_Q : PQ -> LinearOperator P P;
  matvec_A : PA -> LinearOperator P D;
  solve : LinearSolver;
  maxiter : Z;
  tol : R;
  implicit_diff_solve : option LinearSolver;
  jit : bool;
  _check_params : bool;
  optimality_fun : KKTSolution P D DI -> PQ * P -> PA * D -> KKTSolution P D DI }.

(** The dataclass fields, as given to the constructor. *)
Record dataclass_fields : Type := {
  field_matvec_Q : option (PQ -> P -> P);
  field_matvec_A : option (PA -> P -> D);
  field_solve : LinearSolver;
  field_maxiter : Z;
  field_tol : R;
  field_implicit_diff_solve : option LinearSolver;
  field_jit : bool }.

(** The defaults of the dataclass, for a given default solver
    (linear_solve.solve_gmres in the source). *)
Definition default_fields (solve_gmres : LinearSolver) : dataclass_fields := {|
  field_matvec_Q := None;
  field_matvec_A := None;
  field_solve := solve_gmres;
  field_maxiter := 1000;
  field_tol := 1e-5;
  field_implicit_diff_solve := None;
  field_jit := true |}.

(** A method of the solver object: it runs on the object, may raise, and
    returns its result, the object afterwards and the calls it made. *)
Definition M (X : Type) : Type :=
  EqualityConstrainedQP -> ((exn + X) * EqualityConstrainedQP * list event)%type.

#[export] Instance Monad_M : Monad M := {
  ret := fun X x self => (inr x, self, []);
  bind := fun X Y m k self =>
    match m self with
    | (inl e, self1, t1) => (inl e, self1, t1)
    | (inr x, self1, t1) =>
        match k x self1 with
        | (r, self2, t2) => (r, self2, t1 ++ t2)
        end
    end }.

(** What a method returned or raised, the object afterwards, and the calls
    the method made. *)
Definition outcome {X : Type}
  (r : (exn + X) * EqualityConstrainedQP * list event) : exn + X := fst (fst r).

Definition self_after {X : Type}
  (r : (exn + X) * EqualityConstrainedQP * list event) : EqualityConstrainedQP :=
  snd (fst r).

Definition calls {X : Type}
  (r : (exn + X) * EqualityConstrainedQP * list event) : list event := snd r.

(** Reading an attribute of [self]. *)
Definition getattr {X : Type} (attr : EqualityConstrainedQP -> X) : M X :=
  fun self => (inr (attr self), self, []).

(** A collaborator call [e] that returns [x]. *)
Definition emit {X : Type} (e : event) (x : X) : M X :=
  fun self => (inr x, self, [e]).

(** A computation on operators inside a method. *)
Definition liftW {X : Type} (w : W X) : M X :=
  fun self => (inr (fst w), self, map ev_op (snd w)).

(** The call of the imported validation function, which may raise. *)
Definition call_check_params (check_params : PQ * P -> PA * D -> exn + unit)
  (params_obj : PQ * P) (params_eq : PA * D) : M unit :=
  fun self =>
    (check_params params_obj params_eq, self,
     [ev_check_params params_obj params_eq]).

(** The call of the linear solver. *)
Definition call_solve (solve : LinearSolver) (matvec : P * D -> W (P * D))
  (rhs : P * D) (tol : R) (maxiter : Z) : M (P * D) :=
  emit (ev_solve rhs tol maxiter) tt ;;
  liftW (solve matvec rhs tol maxiter).

(** ** The solver *)

(** The closure [matvec] defined inside [run]: the saddle-point operator
    over the instantiated operators [Q] and [A]. *)
Definition matvec (Q : LinearOperator P P) (A : LinearOperator P D)
  (u : P * D) : W (P * D) :=
  let '(primal_u, dual_u) := u in
  '(mv_A, rmv_A) <-
    logged (call_A_matvec_and_rmatvec primal_u dual_u)
           (matvec_and_rmatvec A primal_u dual_u) ;;
  Q_u <- logged (call_Q primal_u) (Q primal_u) ;;
  ret (tree_add Q_u rmv_A, mv_A).

(** The saddle-point operator as the specification writes it:
    matvec((primal_u, dual_u)) = (Q(primal_u) + A^T(dual_u), A(primal_u)). *)
Definition saddle_point_spec (Q : LinearOperator P P) (A : LinearOperator P D)
  (u : P * D) : P * D :=
  (tree_add (Q (fst u)) (rmatvec A (fst u) (snd u)), A (fst u)).

(** [EqualityConstrainedQP.run].  The differentiation decorator and the jit
    wrapper that [__post_init__] puts around it leave the forward
    computation as it is. *)
Definition run (check_params : PQ * P -> PA * D -> exn + unit)
  (init_params : option (KKTSolution P D DI))
  (params_obj : PQ * P) (params_eq : PA * D)
  : M (OptStep (KKTSolution P D DI)) :=
  (* del init_params  # no warm start *)
  flag <- getattr _check_params ;;
  (if flag : bool then call_check_params check_params params_obj params_eq
   else ret tt) ;;
  let '(params_Q, c) := params_obj in
  let '(params_A, b) := params_eq in
  self_matvec_Q <- getattr matvec_Q ;;
  Q <- emit (ev_matvec_Q params_Q) (self_matvec_Q params_Q) ;;
  self_matvec_A <- getattr matvec_A ;;
  A <- emit (ev_matvec_A params_A) (self_matvec_A params_A) ;;
  let minus_c := tree_negative c in
  self_solve <- getattr solve ;;
  self_tol <- getattr tol ;;
  self_maxiter <- getattr maxiter ;;
  '(primal, dual_eq) <-
    call_solve self_solve (matvec Q A) (minus_c, b) self_tol self_maxiter ;;
  ret {| params := {| primal := primal; dual_eq := dual_eq;
                      dual_ineq := None |};
         state := None |}.

(** [EqualityConstrainedQP.l2_optimality_error]. *)
Definition l2_optimality_error (params : KKTSolution P D DI)
  (params_obj : PQ * P) (params_eq : PA * D) : M R :=
  self_optimality_fun <- getattr optimality_fun ;;
  let tree := self_optimality_fun params params_obj params_eq in
  ret (tree_l2_norm tree).

(** [matvec_Q is None] *)
Definition is_None {X : Type} (o : option X) : bool :=
  match o with None => true | Some _ => false end.

(** [EqualityConstrainedQP.__post_init__]: from the dataclass fields to the
    attributes of the object.  The method also wraps [run] in the
    implicit-differentiation decorator and, when [jit] is set, in jax.jit;
    both leave the value computed by [run] as it is and are not
    represented. *)
Definition __post_init__ (fields : dataclass_fields) : EqualityConstrainedQP :=
  let self_check_params :=
    is_None (field_matvec_Q fields) && is_None (field_matvec_A fields) in
  let self_matvec_Q := _make_linear_operator (field_matvec_Q fields) in
  let self_matvec_A := _make_linear_operator (field_matvec_A fields) in
  let self_optimality_fun :=
    _make_eq_qp_optimality_fun self_matvec_Q self_matvec_A in
  {| matvec_Q := self_matvec_Q;
     matvec_A := self_matvec_A;
     solve := field_solve fields;
     maxiter := field_maxiter fields;
     tol := field_tol fields;
     implicit_diff_solve := field_implicit_diff_solve fields;
     jit := field_jit fields;
     _check_params := self_check_params;
     optimality_fun := self_optimality_fun |}.

End EqQP.

(* ================================================================== *)
(** * Contracts of the collaborators *)
(* ================================================================== *)

(** A tree space is a real vector space with a symmetric bilinear inner
    product: what the specification asks of the tree-structured
    vector-space operations, "defined consistently across nested container
    shapes". *)
Class TreeLaws (T : Type) {TT : TreeOps T} : Prop := {
  tree_add_comm : forall x y : T, tree_add x y = tree_add y x;
  tree_add_assoc : forall x y z : T,
    tree_add x (tree_add y z) = tree_add (tree_add x y) z;
  tree_add_zeros : forall x y : T, tree_add x (tree_zeros_like y) = x;
  tree_add_negative : forall x : T,
    tree_add x (tree_negative x) = tree_zeros_like x;
  tree_sub_add_negative : forall x y : T,
    tree_sub x y = tree_add x (tree_negative y);
  tree_scalar_mul_zeros : forall (t : R) (x : T),
    tree_scalar_mul t (tree_zeros_like x) = tree_zeros_like x;
  tree_vdot_comm : forall x y : T, tree_vdot x y = tree_vdot y x;
  tree_vdot_add_l : forall x y z : T,
    tree_vdot (tree_add x y) z = tree_vdot x z + tree_vdot y z;
  tree_vdot_scalar_mul_l : forall (t : R) (x z : T),
    tree_vdot (tree_scalar_mul t x) z = t * tree_vdot x z }.
Arguments TreeLaws T {TT}.

(** Element-wise operations keep the structure of conforming trees. *)
Class StructureLaws (T : Type) {TT : TreeOps T} : Prop := {
  tree_add_structure : forall x y : T,
    tree_structure y = tree_structure x ->
    tree_structure (tree_add x y) = tree_structure x;
  tree_sub_structure : forall x y : T,
    tree_structure y = tree_structure x ->
    tree_structure (tree_sub x y) = tree_structure x }.
Arguments StructureLaws T {TT}.

(** The gradient oracle returns the gradient wherever the function is a
    polynomial of degree at most two around the point. *)
Class AutodiffLaws (P : Type) {TP : TreeOps P} {AD : Autodiff P} : Prop := {
  grad_quadratic : forall (f : P -> R) (x g : P),
    quadratic_at f x g -> grad f x = g }.
Arguments AutodiffLaws P {TP AD}.

(** A gradient has the structure of the point it is taken at. *)
Class AutodiffStructure (P : Type) {TP : TreeOps P} {AD : Autodiff P} : Prop := {
  grad_structure : forall (f : P -> R) (x : P),
    tree_structure (grad f x) = tree_structure x }.
Arguments AutodiffStructure P {TP AD}.

(** An operator is linear. *)
Class Linear {U V : Type} {TU : TreeOps U} {TV : TreeOps V}
  (A : LinearOperator U V) : Prop := {
  apply_add : forall x y : U, A (tree_add x y) = tree_add (A x) (A y);
  apply_scalar_mul : forall (t : R) (x : U),
    A (tree_scalar_mul t x) = tree_scalar_mul t (A x) }.

(** The Operator invariant of the data model: the joint call is equivalent
    to computing [apply] and the adjoint action independently. *)
Class Adjoint {U V : Type} {TU : TreeOps U} {TV : TreeOps V}
  (A : LinearOperator U V) : Prop := {
  joint_apply : forall (u : U) (v : V), fst (matvec_and_rmatvec A u v) = A u;
  joint_adjoint : forall (u h : U) (v : V),
    tree_vdot (A h) v = tree_vdot h (rmatvec A u v) }.

(** Q = Q^T under the tree inner product. *)
Definition symmetric {U : Type} {TU : TreeOps U} (Q : LinearOperator U U) : Prop :=
  forall x y : U, tree_vdot (Q x) y = tree_vdot x (Q y).

(** The inner product separates points: a tree is determined by its
    inner products with all trees. *)
Class TreeDefinite (T : Type) {TT : TreeOps T} : Prop := {
  tree_vdot_definite : forall a b : T,
    (forall h : T, tree_vdot h a = tree_vdot h b) -> a = b }.
Arguments TreeDefinite T {TT}.

(** All the leaves of a tree of zeros are zero. *)
Class ZeroLeaves (T : Type) {TT : TreeOps T} : Prop := {
  tree_leaves_zeros : forall x : T,
    Forall (fun a => a = 0) (tree_leaves (tree_zeros_like x)) }.
Arguments ZeroLeaves T {TT}.

(** <h, Q h> >= 0 for every h. *)
Definition positive_semidefinite {U : Type} {TU : TreeOps U}
  (Q : LinearOperator U U) : Prop :=
  forall h : U, 0 <= tree_vdot h (Q h).

(** On the kernel of A, <h, Q h> vanishes only at zero. *)
Definition definite_on_kernel {U V : Type} {TU : TreeOps U} {TV : TreeOps V}
  (Q : LinearOperator U U) (A : LinearOperator U V) : Prop :=
  forall h : U,
    A h = tree_zeros_like (A h) -> tree_vdot h (Q h) = 0 ->
    h = tree_zeros_like h.

(* ================================================================== *)
(** * Concrete problem instances *)
(* ================================================================== *)

(** Pairs of reals: the primal space of the two-variable examples. *)
Definition Vec2 : Type := (R * R)%type.

(** A linear solver that applies the operator once to the right-hand
    side. *)
Definition solve_one_application {P D : Type}
  : @LinearSolver P D :=
  fun matvec rhs tol maxiter => matvec rhs.

(** The scenario of the specification: minimise x1^2 + x2^2 subject to
    x1 + x2 = 1. *)
Definition scenario_Q : Vec2 * Vec2 := ((2, 0), (0, 2)).
Definition scenario_c : Vec2 := (0, 0).
Definition scenario_A : Vec2 := (1, 1).
Definition scenario_b : R := 1.
Definition scenario_solution : KKTSolution Vec2 R R :=
  {| primal := (0.5, 0.5); dual_eq := -1; dual_ineq := None |}.

(** The solver with default fields on two-variable problems. *)
Definition scenario_solver : @EqualityConstrainedQP (Vec2 * Vec2) Vec2 Vec2 R R :=
  __post_init__ (default_fields solve_one_application).

(** A problem whose Q is not symmetric. *)
Definition skew_Q : Vec2 * Vec2 := ((1, 2), (0, 1)).
Definition skew_point : KKTSolution Vec2 R R :=
  {| primal := (0, 1); dual_eq := 0; dual_ineq := None |}.

(** The same scenario on dense arrays. *)
Definition dense_Q : list (list R) := [[2; 0]; [0; 2]].
Definition dense_c : list R := [0; 0].
Definition dense_A : list (list R) := [[1; 1]].
Definition dense_b : list R := [1].
Definition dense_point : KKTSolution (list R) (list R) (list R) :=
  {| primal := [0.5; 0.5]; dual_eq := [-1]; dual_ineq := None |}.

(** A vector c with three components, against the 2x2 matrix Q. *)
Definition dense_c3 : list R := [0; 0; 0].

(** The solver with default fields on dense arrays. *)
Definition dense_solver
  : @EqualityConstrainedQP (list (list R)) (list (list R)) (list R) (list R)
      (list R) :=
  __post_init__ (default_fields solve_one_application).

(** A solver with a user-supplied matvec for A only. *)
Definition custom_A_solver
  : @EqualityConstrainedQP (list (list R)) (list (list R)) (list R) (list R)
      (list R) :=
  __post_init__ {|
    field_matvec_Q := None;
    field_matvec_A := Some dense_matvec;
    field_solve := solve_one_application;
    field_maxiter := 1000;
    field_tol := 1e-5;
    field_implicit_diff_solve := None;
    field_jit := true |}.

(** A validation function that accepts every problem. *)
Definition accept_params {PQ PA P D : Type}
  : PQ * P -> PA * D -> exn + unit :=
  fun _ _ => inr tt.

(** The one-variable problem: minimise c x subject to x = b, that is
    Q = [0] and A = [1].  Its saddle-point operator swaps the two
    components, so that applying it once to the right-hand side solves the
    system. *)
Definition swap_Q : R := 0.
Definition swap_A : R := 1.
Definition swap_c : R := 3.
Definition swap_b : R := 2.
Definition swap_solver : @EqualityConstrainedQP R R R R R :=
  __post_init__ (default_fields solve_one_application).

(** A two-variable problem with Q = diag(0, 1) and A = [1 0]: minimise
    0.5 x2^2 + 3 x1 + 4 x2 subject to x1 = 2.  Its saddle-point operator is
    an involution, so that applying it once to the right-hand side solves
    the system. *)
Definition proj_Q : Vec2 * Vec2 := ((0, 0), (0, 1)).
Definition proj_A : Vec2 := (1, 0).
Definition proj_c : Vec2 := (3, 4).
Definition proj_b : R := 2.

(** The problem without constraints on dense arrays: Q the identity, A the
    matrix without rows, b the empty vector. *)
Definition dense_identity : list (list R) := [[1; 0]; [0; 1]].
Definition dense_no_rows : list (list R) := [].
Definition dense_c34 : list R := [3; 4].
Definition dense_empty : list R := [].

(** The default solver on dense arrays, without jit and with a solver for
    implicit differentiation. *)
Definition dense_solver_no_jit
  : @EqualityConstrainedQP (list (list R)) (list (list R)) (list R) (list R)
      (list R) :=
  __post_init__ {|
    field_matvec_Q := None;
    field_matvec_A := None;
    field_solve := solve_one_application;
    field_maxiter := 1000;
    field_tol := 1e-5;
    field_implicit_diff_solve := Some solve_one_application;
    field_jit := false |}.

(* ================================================================== *)
(** * Consequences of the tree-space laws *)
(* ================================================================== *)

Section TreeFacts.

Context {T : Type} {TT : TreeOps T} {TL : TreeLaws T}.

Lemma tree_zeros_like_const (x y : T) : tree_zeros_like x = tree_zeros_like y.
Proof.
  rewrite <- (tree_add_zeros (tree_zeros_like x) y).
  rewrite tree_add_comm.
  apply tree_add_zeros.
Qed.

Lemma tree_vdot_add_r (x y z : T) :
  tree_vdot z (tree_add x y) = tree_vdot z x + tree_vdot z y.
Proof.
  rewrite (tree_vdot_comm z), tree_vdot_add_l.
  now rewrite (tree_vdot_comm x), (tree_vdot_comm y).
Qed.

Lemma tree_vdot_scalar_mul_r (t : R) (x z : T) :
  tree_vdot z (tree_scalar_mul t x) = t * tree_vdot z x.
Proof.
  rewrite (tree_vdot_comm z), tree_vdot_scalar_mul_l.
  now rewrite (tree_vdot_comm x).
Qed.

Lemma tree_vdot_zeros_l (x z : T) : tree_vdot (tree_zeros_like x) z = 0.
Proof.
  pose proof (tree_vdot_add_l (tree_zeros_like x) (tree_zeros_like x) z) as E.
  rewrite tree_add_zeros in E.
  lra.
Qed.

Lemma tree_vdot_negative_l (x z : T) :
  tree_vdot (tree_negative x) z = - tree_vdot x z.
Proof.
  pose proof (tree_vdot_add_l x (tree_negative x) z) as E.
  rewrite tree_add_negative, tree_vdot_zeros_l in E.
  lra.
Qed.

Lemma tree_vdot_sub_l (x y z : T) :
  tree_vdot (tree_sub x y) z = tree_vdot x z - tree_vdot y z.
Proof.
  rewrite tree_sub_add_negative, tree_vdot_add_l, tree_vdot_negative_l.
  lra.
Qed.

Lemma tree_sub_diag (a : T) : tree_sub a a = tree_zeros_like a.
Proof. now rewrite tree_sub_add_negative, tree_add_negative. Qed.

(** A difference is zero exactly when the two trees are equal. *)
Lemma tree_sub_zeros_iff (a b : T) :
  tree_sub a b = tree_zeros_like a <-> a = b.
Proof.
  split.
  - intros E.
    rewrite tree_sub_add_negative in E.
    symmetry.
    transitivity (tree_add b (tree_zeros_like a)).
    { symmetry. apply tree_add_zeros. }
    rewrite <- E.
    rewrite (tree_add_comm a), tree_add_assoc, tree_add_negative.
    rewrite tree_add_comm.
    apply tree_add_zeros.
  - intros ->. apply tree_sub_diag.
Qed.

End TreeFacts.

(** ** The laws hold for scalars and for tuples *)

Lemma TreeLaws_scalar : TreeLaws R.
Proof. split; simpl; intros; ring. Qed.
#[export] Existing Instance TreeLaws_scalar.

Lemma TreeLaws_pair {A B : Type} {TA : TreeOps A} {TB : TreeOps B}
  {LA : TreeLaws A} {LB : TreeLaws B} : TreeLaws (A * B).
Proof.
  split; simpl; intros.
  - now rewrite (tree_add_comm (fst x)), (tree_add_comm (snd x)).
  - now rewrite !tree_add_assoc.
  - rewrite !tree_add_zeros. now destruct x.
  - now rewrite !tree_add_negative.
  - now rewrite !tree_sub_add_negative.
  - now rewrite !tree_scalar_mul_zeros.
  - now rewrite (tree_vdot_comm (fst x)), (tree_vdot_comm (snd x)).
  - rewrite !tree_vdot_add_l. ring.
  - rewrite !tree_vdot_scalar_mul_l. ring.
Qed.
#[export] Existing Instance TreeLaws_pair.

Lemma StructureLaws_scalar : StructureLaws R.
Proof. split; reflexivity. Qed.
#[export] Existing Instance StructureLaws_scalar.

Lemma map2_length (f : R -> R -> R) (x y : list R) :
  length y = length x -> length (map2 f x y) = length x.
Proof.
  revert y.
  induction x as [|a x IH]; intros [|b y] E; simpl in *;
    try reflexivity; try discriminate.
  f_equal. apply IH. now injection E.
Qed.

Lemma StructureLaws_array : StructureLaws (list R).
Proof.
  split; simpl; intros x y E; injection E as E;
    now rewrite map2_length.
Qed.
#[export] Existing Instance StructureLaws_array.

Lemma StructureLaws_pair {A B : Type}
  {TA : TreeOps A} {TB : TreeOps B}
  {LA : StructureLaws A} {LB : StructureLaws B} : StructureLaws (A * B).
Proof.
  split; simpl; intros x y E; injection E as Ea Eb.
  - now rewrite tree_add_structure, tree_add_structure.
  - now rewrite tree_sub_structure, tree_sub_structure.
Qed.
#[export] Existing Instance StructureLaws_pair.

(** ** The finite-difference oracles are gradient oracles *)

Lemma AutodiffLaws_scalar : AutodiffLaws R.
Proof.
  split. intros f x g [q Hq]. simpl in *.
  replace (x + 1) with (x + 1 * 1) by ring.
  replace (x - 1) with (x + -1 * 1) by ring.
  rewrite !Hq. field.
Qed.
#[export] Existing Instance AutodiffLaws_scalar.

Lemma AutodiffLaws_pair {A B : Type}
  {TA : TreeOps A} {TB : TreeOps B} {LA : TreeLaws A} {LB : TreeLaws B}
  {DA : Autodiff A} {DB : Autodiff B}
  {GA : AutodiffLaws A} {GB : AutodiffLaws B} : AutodiffLaws (A * B).
Proof.
  split. intros f [a b] [ga gb] [q Hq]. simpl.
  f_equal; apply grad_quadratic.
  - exists (fun h => q (h, tree_zeros_like b)). intros h t.
    specialize (Hq (h, tree_zeros_like b) t). simpl in Hq.
    rewrite tree_scalar_mul_zeros, tree_add_zeros in Hq.
    rewrite Hq, (tree_vdot_comm gb), tree_vdot_zeros_l. ring.
  - exists (fun h => q (tree_zeros_like a, h)). intros h t.
    specialize (Hq (tree_zeros_like a, h) t). simpl in Hq.
    rewrite tree_scalar_mul_zeros, tree_add_zeros in Hq.
    rewrite Hq, (tree_vdot_comm ga), tree_vdot_zeros_l. ring.
Qed.
#[export] Existing Instance AutodiffLaws_pair.

Lemma AutodiffStructure_array : AutodiffStructure (list R).
Proof.
  split. intros f x. simpl. now rewrite length_map, length_seq.
Qed.
#[export] Existing Instance AutodiffStructure_array.

(** ** Dense operators satisfy the operator contract *)

Lemma Linear_row {U : Type} {TU : TreeOps U} {LU : TreeLaws U}
  (r : U) : Linear (DenseLinearOperator r : LinearOperator U R).
Proof.
  split; simpl; intros.
  - apply tree_vdot_add_r.
  - apply tree_vdot_scalar_mul_r.
Qed.
#[export] Existing Instance Linear_row.

Lemma Adjoint_row {U : Type} {TU : TreeOps U} {LU : TreeLaws U}
  (r : U) : Adjoint (DenseLinearOperator r : LinearOperator U R).
Proof.
  split; unfold rmatvec; simpl; intros.
  - reflexivity.
  - rewrite tree_vdot_scalar_mul_r, (tree_vdot_comm h). ring.
Qed.
#[export] Existing Instance Adjoint_row.

Lemma Linear_two_rows {U : Type} {TU : TreeOps U}
  {LU : TreeLaws U} (M : U * U)
  : Linear (DenseLinearOperator M : LinearOperator U (R * R)).
Proof.
  split; simpl; intros.
  - now rewrite !tree_vdot_add_r.
  - now rewrite !tree_vdot_scalar_mul_r.
Qed.
#[export] Existing Instance Linear_two_rows.

Lemma Adjoint_two_rows {U : Type} {TU : TreeOps U}
  {LU : TreeLaws U} (M : U * U)
  : Adjoint (DenseLinearOperator M : LinearOperator U (R * R)).
Proof.
  split; unfold rmatvec; simpl; intros.
  - reflexivity.
  - rewrite tree_vdot_add_r, !tree_vdot_scalar_mul_r.
    rewrite (tree_vdot_comm h (fst M)), (tree_vdot_comm h (snd M)). ring.
Qed.
#[export] Existing Instance Adjoint_two_rows.

Lemma scenario_Q_symmetric :
  symmetric (DenseLinearOperator scenario_Q : LinearOperator Vec2 Vec2).
Proof. intros [x1 x2] [y1 y2]. simpl. ring. Qed.

(** ** The oracle's specification is the derivative *)

Lemma polynomial_derivative (k a c : R) (F : R -> R) :
  (forall t, F t = k + t * a + t * t * c) -> derivable_pt_lim F 0 a.
Proof.
  intros HF eps Heps.
  assert (Hpos : 0 < eps / (Rabs c + 1)).
  { apply Rdiv_lt_0_compat; [exact Heps|]. pose proof (Rabs_pos c). lra. }
  exists (mkposreal _ Hpos). intros t Ht0 Htd. simpl in Htd.
  rewrite !HF.
  replace ((k + (0 + t) * a + (0 + t) * (0 + t) * c
            - (k + 0 * a + 0 * 0 * c)) / t - a)
    with (t * c) by (field; exact Ht0).
  rewrite Rabs_mult.
  pose proof (Rabs_pos c) as Hc. pose proof (Rabs_pos t) as Ht.
  assert (Hd : Rabs t * (Rabs c + 1) < eps).
  { apply (Rmult_lt_reg_r (/ (Rabs c + 1))).
    - apply Rinv_0_lt_compat. lra.
    - rewrite Rmult_assoc, Rinv_r by lra. rewrite Rmult_1_r. exact Htd. }
  nra.
Qed.

(** If [quadratic_at f x g], then <g, h> is the derivative of [f] at [x] in
    every direction [h]: [g] is the gradient of [f] at [x]. *)
Lemma quadratic_at_directional_derivative {P : Type} {TP : TreeOps P}
  (f : P -> R) (x g h : P) :
  quadratic_at f x g ->
  derivable_pt_lim (fun t => f (tree_add x (tree_scalar_mul t h))) 0
    (tree_vdot g h).
Proof.
  intros [q Hq].
  apply (@polynomial_derivative (f x) (tree_vdot g h) (q h)).
  intros t. apply Hq.
Qed.

(* ================================================================== *)
(** * The KKT residual *)
(* ================================================================== *)

Section Residual.

Context {PQ PA P D DI : Type}.
Context {TP : TreeOps P} {TD : TreeOps D} {TI : TreeOps DI}.
Context {AD : Autodiff P}.
Context {LP : TreeLaws P} {LD : TreeLaws D} {GP : AutodiffLaws P}.

(** For a linear operator Q, the objective 0.5 <x, Q x> + <x, c> is a
    polynomial of degree two, and for a symmetric Q its linear part at [x]
    is Q x + c. *)
Lemma obj_fun_quadratic (matvec_Q : PQ -> LinearOperator P P)
  (params_Q : PQ) (c x : P) :
  Linear (matvec_Q params_Q) -> symmetric (matvec_Q params_Q) ->
  quadratic_at (fun y => obj_fun matvec_Q y (params_Q, c)) x
               (tree_add (matvec_Q params_Q x) c).
Proof.
  intros LQ SQ.
  exists (fun h => 0.5 * tree_vdot h (matvec_Q params_Q h)).
  intros h t. unfold obj_fun.
  rewrite apply_add, apply_scalar_mul.
  rewrite !tree_vdot_add_l, !tree_vdot_add_r.
  rewrite !tree_vdot_scalar_mul_l, !tree_vdot_scalar_mul_r.
  rewrite ?tree_vdot_scalar_mul_l.
  rewrite <- (SQ x h), (tree_vdot_comm h (matvec_Q params_Q x)).
  rewrite (tree_vdot_comm h c).
  replace 0.5 with (/ 2) by lra.
  field.
Qed.

(** For a linear operator A with its adjoint, y |-> <A y - b, v> is affine
    with linear part <A^T v, h>. *)
Lemma eq_fun_quadratic (matvec_A : PA -> LinearOperator P D)
  (params_A : PA) (b v : D) (x : P) :
  Linear (matvec_A params_A) -> Adjoint (matvec_A params_A) ->
  quadratic_at (fun y => tree_vdot (eq_fun matvec_A y (params_A, b)) v) x
               (rmatvec (matvec_A params_A) x v).
Proof.
  intros LA AA.
  exists (fun _ => 0).
  intros h t. unfold eq_fun.
  rewrite apply_add, apply_scalar_mul.
  rewrite !tree_vdot_sub_l, tree_vdot_add_l, tree_vdot_scalar_mul_l.
  rewrite (joint_adjoint x h v), (tree_vdot_comm h).
  ring.
Qed.

(** Without symmetry the linear part of the objective at [x] is
    (Q x + Q^T x) / 2 + c. *)
Lemma obj_fun_quadratic_general (matvec_Q : PQ -> LinearOperator P P)
  (params_Q : PQ) (c x : P) :
  Linear (matvec_Q params_Q) -> Adjoint (matvec_Q params_Q) ->
  quadratic_at (fun y => obj_fun matvec_Q y (params_Q, c)) x
    (tree_add
       (tree_scalar_mul 0.5
          (tree_add (matvec_Q params_Q x) (rmatvec (matvec_Q params_Q) x x)))
       c).
Proof.
  intros LQ AQ.
  exists (fun h => 0.5 * tree_vdot h (matvec_Q params_Q h)).
  intros h t. unfold obj_fun.
  rewrite apply_add, apply_scalar_mul.
  rewrite !tree_vdot_add_l, !tree_vdot_add_r.
  rewrite !tree_vdot_scalar_mul_l, !tree_vdot_scalar_mul_r.
  rewrite ?tree_vdot_scalar_mul_l, ?tree_vdot_add_l.
  rewrite (tree_vdot_comm x (matvec_Q params_Q h)), (joint_adjoint x h x).
  rewrite (tree_vdot_comm h (matvec_Q params_Q x)).
  rewrite (tree_vdot_comm h c).
  rewrite (tree_vdot_comm h (rmatvec (matvec_Q params_Q) x x)).
  replace 0.5 with (/ 2) by lra.
  field.
Qed.

(** The residual for a symmetric Q: stationarity Q(x) + c + A^T(lambda),
    feasibility A(x) - b, no inequality component. *)
Lemma optimality_fun_symmetric
  (matvec_Q : PQ -> LinearOperator P P) (matvec_A : PA -> LinearOperator P D)
  (params : KKTSolution P D DI) (params_Q : PQ) (c : P) (params_A : PA) (b : D) :
  Linear (matvec_Q params_Q) -> symmetric (matvec_Q params_Q) ->
  Linear (matvec_A params_A) -> Adjoint (matvec_A params_A) ->
  _make_eq_qp_optimality_fun matvec_Q matvec_A params
      (params_Q, c) (params_A, b)
  = {| primal :=
         tree_add (tree_add (matvec_Q params_Q (primal params)) c)
                  (rmatvec (matvec_A params_A) (primal params) (dual_eq params));
       dual_eq := tree_sub (matvec_A params_A (primal params)) b;
       dual_ineq := None |}.
Proof.
  intros LQ SQ LA AA.
  unfold _make_eq_qp_optimality_fun, make_kkt_optimality_fun, vjp.
  rewrite (grad_quadratic
             (@obj_fun_quadratic matvec_Q params_Q c (primal params) LQ SQ)).
  rewrite (grad_quadratic
             (@eq_fun_quadratic matvec_A params_A b (dual_eq params)
                (primal params) LA AA)).
  reflexivity.
Qed.

(** The residual in general: the stationarity component is
    (Q x + Q^T x) / 2 + c + A^T(lambda). *)
Lemma optimality_fun_general
  (matvec_Q : PQ -> LinearOperator P P) (matvec_A : PA -> LinearOperator P D)
  (params : KKTSolution P D DI) (params_Q : PQ) (c : P) (params_A : PA) (b : D) :
  Linear (matvec_Q params_Q) -> Adjoint (matvec_Q params_Q) ->
  Linear (matvec_A params_A) -> Adjoint (matvec_A params_A) ->
  _make_eq_qp_optimality_fun matvec_Q matvec_A params
      (params_Q, c) (params_A, b)
  = {| primal :=
         tree_add
           (tree_add
              (tree_scalar_mul 0.5
                 (tree_add (matvec_Q params_Q (primal params))
                    (rmatvec (matvec_Q params_Q) (primal params)
                       (primal params))))
              c)
           (rmatvec (matvec_A params_A) (primal params) (dual_eq params));
       dual_eq := tree_sub (matvec_A params_A (primal params)) b;
       dual_ineq := None |}.
Proof.
  intros LQ AQ LA AA.
  unfold _make_eq_qp_optimality_fun, make_kkt_optimality_fun, vjp.
  rewrite (grad_quadratic
             (@obj_fun_quadratic_general matvec_Q params_Q c (primal params)
                LQ AQ)).
  rewrite (grad_quadratic
             (@eq_fun_quadratic matvec_A params_A b (dual_eq params)
                (primal params) LA AA)).
  reflexivity.
Qed.

(** A KKT residual is zero exactly when both of its components are. *)
Lemma residual_zero_iff (s x : P) (f : D) :
  ({| primal := s; dual_eq := f; dual_ineq := None |} : KKTSolution P D DI)
  = tree_zeros_like
      ({| primal := s; dual_eq := f; dual_ineq := None |} : KKTSolution P D DI)
  <-> s = tree_zeros_like x /\ f = tree_zeros_like f.
Proof.
  simpl. split.
  - intros H. injection H as Hs Hf. split; [|exact Hf].
    rewrite Hs at 1. apply tree_zeros_like_const.
  - intros [Hs Hf]. f_equal; [|exact Hf].
    rewrite Hs at 1. apply tree_zeros_like_const.
Qed.

(** C1 (as amended): for a symmetric Q, the residual returned by the
    optimality function built by [_make_eq_qp_optimality_fun] has the
    stationarity component Q(x) + c + A^T(lambda) and the feasibility
    component A(x) - b, and no inequality component; it is zero exactly when
    Q x + c + A^T lambda = 0 and A x = b. *)
Theorem optimality_fun_residual
  (matvec_Q : PQ -> LinearOperator P P) (matvec_A : PA -> LinearOperator P D)
  (params : KKTSolution P D DI) (params_Q : PQ) (c : P) (params_A : PA) (b : D) :
  Linear (matvec_Q params_Q) -> symmetric (matvec_Q params_Q) ->
  Linear (matvec_A params_A) -> Adjoint (matvec_A params_A) ->
  _make_eq_qp_optimality_fun matvec_Q matvec_A params
      (params_Q, c) (params_A, b)
  = {| primal :=
         tree_add (tree_add (matvec_Q params_Q (primal params)) c)
                  (rmatvec (matvec_A params_A) (primal params) (dual_eq params));
       dual_eq := tree_sub (matvec_A params_A (primal params)) b;
       dual_ineq := None |}
  /\ (_make_eq_qp_optimality_fun matvec_Q matvec_A params
        (params_Q, c) (params_A, b)
      = tree_zeros_like
          (_make_eq_qp_optimality_fun matvec_Q matvec_A params
             (params_Q, c) (params_A, b))
      <-> tree_add (tree_add (matvec_Q params_Q (primal params)) c)
                   (rmatvec (matvec_A params_A) (primal params) (dual_eq params))
          = tree_zeros_like (primal params)
          /\ matvec_A params_A (primal params) = b).
Proof.
  intros LQ SQ LA AA.
  rewrite (@optimality_fun_symmetric matvec_Q matvec_A params params_Q c
             params_A b LQ SQ LA AA).
  split; [reflexivity|].
  rewrite (residual_zero_iff _ (primal params)).
  rewrite <- (tree_sub_zeros_iff (matvec_A params_A (primal params)) b).
  rewrite (tree_zeros_like_const
             (tree_sub (matvec_A params_A (primal params)) b)
             (matvec_A params_A (primal params))).
  reflexivity.
Qed.

End Residual.

(** The residual at the solution of the scenario of the specification. *)
Lemma optimality_fun_residual_at_scenario :
  _make_eq_qp_optimality_fun DenseLinearOperator DenseLinearOperator
    scenario_solution (scenario_Q, scenario_c) (scenario_A, scenario_b)
  = {| primal := (0, 0); dual_eq := 0; dual_ineq := None |}.
Proof.
  rewrite (@optimality_fun_symmetric (Vec2 * Vec2) Vec2 Vec2 R R _ _ _ _ _ _
             DenseLinearOperator DenseLinearOperator
             scenario_solution scenario_Q scenario_c scenario_A scenario_b
             (Linear_two_rows scenario_Q) scenario_Q_symmetric
             (Linear_row scenario_A) (Adjoint_row scenario_A)).
  unfold rmatvec, scenario_b. simpl.
  f_equal; [f_equal|]; lra.
Qed.

(** At the scenario of the specification (Q = 2 I, c = 0, A = [1 1], b = 1)
    the hypotheses of [optimality_fun_residual] hold, and the residual at
    x = (0.5, 0.5), lambda = -1 is zero. *)
Lemma optimality_fun_residual_scenario :
  symmetric (DenseLinearOperator scenario_Q : LinearOperator Vec2 Vec2)
  /\ _make_eq_qp_optimality_fun DenseLinearOperator DenseLinearOperator
       scenario_solution (scenario_Q, scenario_c) (scenario_A, scenario_b)
     = {| primal := (0, 0); dual_eq := 0; dual_ineq := None |}.
Proof.
  split; [exact scenario_Q_symmetric|].
  destruct (@optimality_fun_residual (Vec2 * Vec2) Vec2 Vec2 R R _ _ _ _ _ _ _
              DenseLinearOperator DenseLinearOperator
              scenario_solution scenario_Q scenario_c scenario_A scenario_b
              (Linear_two_rows scenario_Q) scenario_Q_symmetric
              (Linear_row scenario_A) (Adjoint_row scenario_A)) as [E _].
  rewrite E. unfold rmatvec, scenario_b. simpl.
  f_equal; [f_equal|]; lra.
Defined.

(** What the optimality function returns at x = (0, 1), lambda = 0 for the
    non-symmetric Q = [[1, 2], [0, 1]], c = 0, A = [1 1], b = 0: the
    stationarity component is (Q + Q^T) x / 2 = (1, 1). *)
Lemma optimality_fun_skew_Q :
  _make_eq_qp_optimality_fun DenseLinearOperator DenseLinearOperator
    skew_point (skew_Q, scenario_c) (scenario_A, 0)
  = {| primal := (1, 1); dual_eq := 1; dual_ineq := None |}.
Proof.
  unfold _make_eq_qp_optimality_fun, make_kkt_optimality_fun, vjp. simpl.
  f_equal; [f_equal|]; lra.
Qed.

(** The same value is returned with any gradient oracle that satisfies
    [AutodiffLaws]: it does not depend on central differences. *)
Lemma optimality_fun_skew_Q_any_oracle (AD : Autodiff Vec2) :
  AutodiffLaws Vec2 ->
  _make_eq_qp_optimality_fun (AD := AD) DenseLinearOperator DenseLinearOperator
    skew_point (skew_Q, scenario_c) (scenario_A, 0)
  = {| primal := (1, 1); dual_eq := 1; dual_ineq := None |}.
Proof.
  intros GL.
  rewrite (@optimality_fun_general (Vec2 * Vec2) Vec2 Vec2 R R _ _ AD _ _ GL
             DenseLinearOperator DenseLinearOperator
             skew_point skew_Q scenario_c scenario_A 0
             (Linear_two_rows skew_Q) (Adjoint_two_rows skew_Q)
             (Linear_row scenario_A) (Adjoint_row scenario_A)).
  unfold rmatvec. simpl.
  f_equal; [f_equal|]; lra.
Qed.

(** C1 (as stated) fails: for the non-symmetric Q = [[1, 2], [0, 1]] the
    stationarity component is not Q(x) + c + A^T(lambda), which is (2, 1)
    at x = (0, 1), lambda = 0. *)
Lemma optimality_fun_skew_Q_not_Qx :
  _make_eq_qp_optimality_fun DenseLinearOperator DenseLinearOperator
    skew_point (skew_Q, scenario_c) (scenario_A, 0)
  <> {| primal :=
          tree_add
            (tree_add
               ((DenseLinearOperator skew_Q : LinearOperator Vec2 Vec2)
                  (primal skew_point)) scenario_c)
            (rmatvec (DenseLinearOperator scenario_A : LinearOperator Vec2 R)
               (primal skew_point) (dual_eq skew_point));
        dual_eq :=
          tree_sub
            ((DenseLinearOperator scenario_A : LinearOperator Vec2 R)
               (primal skew_point)) 0;
        dual_ineq := None |}.
Proof.
  rewrite optimality_fun_skew_Q. unfold rmatvec. simpl.
  intros H. injection H as H1 H2 H3. lra.
Qed.

(* ================================================================== *)
(** * The saddle-point operator *)
(* ================================================================== *)

Section SaddlePoint.

Context {PQ PA P D : Type}.
Context {TP : TreeOps P} {TD : TreeOps D}.

(** The closure [matvec] evaluated: its value and the operator calls it
    makes, in order. *)
Lemma matvec_eq (Q : LinearOperator P P) (A : LinearOperator P D)
  (primal_u : P) (dual_u : D) :
  matvec Q A (primal_u, dual_u)
  = ((tree_add (Q primal_u) (snd (matvec_and_rmatvec A primal_u dual_u)),
      fst (matvec_and_rmatvec A primal_u dual_u)),
     [call_A_matvec_and_rmatvec primal_u dual_u; call_Q primal_u]).
Proof.
  unfold matvec. simpl.
  now destruct (matvec_and_rmatvec A primal_u dual_u).
Qed.

(** C2: for an operator A whose joint call returns A(u) as its first
    component (the Operator invariant), the saddle-point operator built
    inside [run] maps
    (primal_u, dual_u) to (Q(primal_u) + A^T(dual_u), A(primal_u)); it makes
    exactly one joint matvec-and-adjoint call on A and then one matvec call
    on Q; its dual output does not depend on dual_u; and its value is
    determined by the answers to these two calls alone. *)
Theorem matvec_saddle_point (Q : LinearOperator P P) (A : LinearOperator P D)
  (primal_u : P) (dual_u : D) :
  (forall (u : P) (v : D), fst (matvec_and_rmatvec A u v) = A u) ->
  matvec Q A (primal_u, dual_u)
  = (saddle_point_spec Q A (primal_u, dual_u),
     [call_A_matvec_and_rmatvec primal_u dual_u; call_Q primal_u])
  /\ (forall dual_u' : D,
        snd (fst (matvec Q A (primal_u, dual_u')))
        = snd (fst (matvec Q A (primal_u, dual_u))))
  /\ (forall (Q' : LinearOperator P P) (A' : LinearOperator P D),
        Q' primal_u = Q primal_u ->
        matvec_and_rmatvec A' primal_u dual_u
        = matvec_and_rmatvec A primal_u dual_u ->
        fst (matvec Q' A' (primal_u, dual_u))
        = fst (matvec Q A (primal_u, dual_u))).
Proof.
  intros HA. repeat split.
  - rewrite matvec_eq. unfold saddle_point_spec, rmatvec. simpl.
    now rewrite HA.
  - intros dual_u'. rewrite !matvec_eq. simpl.
    now rewrite !HA.
  - intros Q' A' EQ EA. rewrite !matvec_eq. simpl.
    now rewrite EQ, EA.
Qed.

(** C4: whenever Q is symmetric, the saddle-point operator built inside
    [run] is self-adjoint under the tree inner product:
    <matvec(p), q> = <p, matvec(q)> for all KKT points p and q. *)
Theorem matvec_self_adjoint {LP : TreeLaws P} {LD : TreeLaws D}
  (Q : LinearOperator P P) (A : LinearOperator P D) :
  symmetric Q -> Adjoint A ->
  forall p q : P * D,
    tree_vdot (fst (matvec Q A p)) q = tree_vdot p (fst (matvec Q A q)).
Proof.
  intros SQ AA [pu pd] [qu qd].
  rewrite !matvec_eq. simpl.
  rewrite !joint_apply.
  rewrite tree_vdot_add_l, tree_vdot_add_r.
  rewrite (SQ pu qu).
  rewrite (joint_adjoint qu pu qd).
  rewrite (tree_vdot_comm pd), (joint_adjoint pu qu pd).
  unfold rmatvec.
  rewrite (tree_vdot_comm qu).
  ring.
Qed.

End SaddlePoint.

(** At the scenario of the specification the joint call of A = [1 1]
    returns A(u) first, and the saddle-point operator maps
    ((1, 2), 3) to ((2 + 3, 4 + 3), 1 + 2). *)
Lemma matvec_saddle_point_scenario :
  (forall (u : Vec2) (v : R),
     fst (matvec_and_rmatvec
            (DenseLinearOperator scenario_A : LinearOperator Vec2 R) u v)
     = (DenseLinearOperator scenario_A : LinearOperator Vec2 R) u)
  /\ fst (matvec (DenseLinearOperator scenario_Q : LinearOperator Vec2 Vec2)
                 (DenseLinearOperator scenario_A : LinearOperator Vec2 R)
                 ((1, 2), 3))
     = ((5, 7), 3).
Proof.
  assert (HA : forall (u : Vec2) (v : R),
             fst (matvec_and_rmatvec
                    (DenseLinearOperator scenario_A : LinearOperator Vec2 R) u v)
             = (DenseLinearOperator scenario_A : LinearOperator Vec2 R) u)
    by reflexivity.
  split; [exact HA|].
  destruct (matvec_saddle_point
              (DenseLinearOperator scenario_Q : LinearOperator Vec2 Vec2)
              (DenseLinearOperator scenario_A : LinearOperator Vec2 R)
              (1, 2) 3 HA) as [E _].
  refine (eq_trans (f_equal fst E) _).
  unfold saddle_point_spec, rmatvec. simpl.
  f_equal; [f_equal|]; lra.
Defined.

(** At the scenario of the specification Q = 2 I is symmetric, and the
    saddle-point operator is self-adjoint on the pair of KKT points
    ((1, 2), 3) and ((4, 5), 6). *)
Lemma matvec_self_adjoint_scenario :
  symmetric (DenseLinearOperator scenario_Q : LinearOperator Vec2 Vec2)
  /\ tree_vdot
       (fst (matvec (DenseLinearOperator scenario_Q : LinearOperator Vec2 Vec2)
                    (DenseLinearOperator scenario_A : LinearOperator Vec2 R)
                    ((1, 2), 3)))
       ((4, 5), 6)
     = tree_vdot ((1, 2), 3)
         (fst (matvec (DenseLinearOperator scenario_Q : LinearOperator Vec2 Vec2)
                      (DenseLinearOperator scenario_A : LinearOperator Vec2 R)
                      ((4, 5), 6))).
Proof.
  split; [exact scenario_Q_symmetric|].
  exact (@matvec_self_adjoint Vec2 R _ _ _ _
           (DenseLinearOperator scenario_Q) (DenseLinearOperator scenario_A)
           scenario_Q_symmetric (Adjoint_row scenario_A) ((1, 2), 3) ((4, 5), 6)).
Defined.

(* ================================================================== *)
(** * The solve orchestration *)
(* ================================================================== *)

Section Run.

Context {PQ PA P D DI : Type}.
Context {TP : TreeOps P} {TD : TreeOps D} {TI : TreeOps DI}.
Context {AD : Autodiff P}.
Context {DQ : Dense PQ P P} {DA : Dense PA P D}.

Variable check_params : PQ * P -> PA * D -> exn + unit.

(** [run] evaluated on an object [self]. *)
Lemma run_eq (self : EqualityConstrainedQP (DI := DI))
  (init_params : option (KKTSolution P D DI))
  (params_Q : PQ) (c : P) (params_A : PA) (b : D) :
  let sol :=
    solve self (matvec (matvec_Q self params_Q) (matvec_A self params_A))
          (tree_negative c, b) (tol self) (maxiter self) in
  let step :=
    {| params := {| primal := fst (fst sol); dual_eq := snd (fst sol);
                    dual_ineq := None |};
       state := None |} in
  let body :=
    [ev_matvec_Q params_Q; ev_matvec_A params_A;
     ev_solve (tree_negative c, b) (tol self) (maxiter self)]
    ++ map ev_op (snd sol) in
  run check_params init_params (params_Q, c) (params_A, b) self
  = if _check_params self then
      match check_params (params_Q, c) (params_A, b) with
      | inl e =>
          (inl e, self, [ev_check_params (params_Q, c) (params_A, b)])
      | inr _ =>
          (inr step, self,
           ev_check_params (params_Q, c) (params_A, b) :: body)
      end
    else (inr step, self, body).
Proof.
  intros sol step body. subst sol step body.
  unfold run, call_check_params, call_solve, getattr, emit, liftW. simpl.
  destruct (_check_params self); simpl.
  - destruct (check_params (params_Q, c) (params_A, b)) as [e|[]]; simpl.
    + reflexivity.
    + destruct (solve self _ _ _ _) as [[primal dual_eq] t]. simpl.
      now rewrite app_nil_r.
  - destruct (solve self _ _ _ _) as [[primal dual_eq] t]. simpl.
    now rewrite app_nil_r.
Qed.

(** [run] never changes the object it runs on. *)
Lemma run_self_after (self : EqualityConstrainedQP (DI := DI))
  (init_params : option (KKTSolution P D DI))
  (params_obj : PQ * P) (params_eq : PA * D) :
  self_after (run check_params init_params params_obj params_eq self) = self.
Proof.
  destruct params_obj as [params_Q c], params_eq as [params_A b].
  rewrite run_eq.
  destruct (_check_params self); [|reflexivity].
  now destruct (check_params (params_Q, c) (params_A, b)).
Qed.


(** C8: [run] ignores [init_params]: for every value of it, [run] behaves
    as it does when given None (same result or error, same calls, same
    object afterwards). *)
Theorem run_ignores_init_params (self : EqualityConstrainedQP (DI := DI))
  (init_params : option (KKTSolution P D DI))
  (params_obj : PQ * P) (params_eq : PA * D) :
  run check_params init_params params_obj params_eq self
  = run check_params None params_obj params_eq self.
Proof.
  destruct params_obj as [params_Q c], params_eq as [params_A b].
  now rewrite !run_eq.
Qed.

(** C9: [run] leaves the solver object as it found it, so a second call
    with the same problem instance, made on the object the first call left
    behind, gives the same result and makes the same calls. *)
Theorem run_twice_same_result (self : EqualityConstrainedQP (DI := DI))
  (init_params : option (KKTSolution P D DI))
  (params_obj : PQ * P) (params_eq : PA * D) :
  let first := run check_params init_params params_obj params_eq self in
  let second :=
    run check_params init_params params_obj params_eq (self_after first) in
  self_after first = self
  /\ outcome second = outcome first
  /\ calls second = calls first
  /\ self_after second = self.
Proof.
  intros first second. subst first second.
  rewrite !run_self_after. repeat split.
Qed.

(** C5: [l2_optimality_error] returns the Euclidean norm of the flattened
    components of the residual computed by the optimality function at its
    arguments, a non-negative scalar; it neither raises nor makes calls nor
    changes the solver. *)
Theorem l2_optimality_error_euclidean_norm (fields : dataclass_fields)
  (params : KKTSolution P D DI) (params_obj : PQ * P) (params_eq : PA * D) :
  let self := __post_init__ (DI := DI) fields in
  let residual :=
    _make_eq_qp_optimality_fun (matvec_Q self) (matvec_A self)
      params params_obj params_eq in
  l2_optimality_error params params_obj params_eq self
  = (inr (euclidean_norm (tree_leaves residual)), self, [])
  /\ tree_leaves residual
     = tree_leaves (primal residual) ++ tree_leaves (dual_eq residual)
  /\ 0 <= euclidean_norm (tree_leaves residual).
Proof.
  intros self residual. repeat split.
  - simpl. now rewrite app_nil_r.
  - apply sqrt_pos.
Qed.

End Run.

Section Validation.

Context {PQ PA P D DI : Type}.
Context {TP : TreeOps P} {TD : TreeOps D} {TI : TreeOps DI}.
Context {AD : Autodiff P}.
Context {DQ : Dense PQ P P} {DA : Dense PA P D}.

(** C10: shape validation is performed exactly when both matvec_Q and
    matvec_A were left unset at construction; with a custom matvec for
    either of them, the validation function has no influence on the
    call. *)
Theorem check_params_iff_both_None
  (check_params : PQ * P -> PA * D -> exn + unit) (fields : dataclass_fields)
  (init_params : option (KKTSolution P D DI))
  (params_obj : PQ * P) (params_eq : PA * D) :
  (_check_params (__post_init__ (DI := DI) fields) = true
   <-> field_matvec_Q fields = None /\ field_matvec_A fields = None)
  /\ (In (ev_check_params params_obj params_eq)
        (calls (run check_params init_params params_obj params_eq
                    (__post_init__ (DI := DI) fields)))
      <-> field_matvec_Q fields = None /\ field_matvec_A fields = None)
  /\ (~ (field_matvec_Q fields = None /\ field_matvec_A fields = None) ->
      forall check_params' : PQ * P -> PA * D -> exn + unit,
        run check_params' init_params params_obj params_eq
            (__post_init__ (DI := DI) fields)
        = run check_params init_params params_obj params_eq
              (__post_init__ (DI := DI) fields)).
Proof.
  assert (Hflag : _check_params (__post_init__ (DI := DI) fields) = true
                  <-> field_matvec_Q fields = None
                      /\ field_matvec_A fields = None).
  { simpl.
    destruct (field_matvec_Q fields), (field_matvec_A fields); simpl;
      split; try discriminate; try (intros [? ?]; discriminate);
      auto. }
  destruct params_obj as [params_Q c], params_eq as [params_A b].
  split; [exact Hflag|]. split.
  - rewrite <- Hflag. rewrite run_eq. cbv zeta.
    destruct (_check_params (__post_init__ fields)).
    + split; [reflexivity|]. intros _.
      destruct (check_params (params_Q, c) (params_A, b)); left; reflexivity.
    + split; [|discriminate]. unfold calls. simpl.
      intros [H|[H|[H|H]]]; try discriminate.
      apply in_map_iff in H. destruct H as [x [H _]]. discriminate.
  - intros Hnot check_params'. rewrite !run_eq. cbv zeta.
    destruct (_check_params (__post_init__ fields)) eqn:E; [|reflexivity].
    exfalso. apply Hnot, Hflag. reflexivity.
Qed.

End Validation.

(* ================================================================== *)
(** * Shape validation on dense parameters *)
(* ================================================================== *)

Section DenseValidation.

Context {DI : Type}.

(** The dense validation raises exactly on a shape mismatch. *)
Lemma cvxpy_wrapper_check_params_raises (Q A : list (list R)) (c b : list R) :
  length c <> ncols Q \/ length b <> nrows A ->
  exists operand operand_shape matrix_shape,
    cvxpy_wrapper_check_params (Q, c) (A, b)
    = inl (ShapeMismatch operand operand_shape matrix_shape)
    /\ ((operand_shape = [length c] /\ matrix_shape = [nrows Q; ncols Q]
         /\ length c <> ncols Q)
        \/ (operand_shape = [length b] /\ matrix_shape = [nrows A; ncols A]
            /\ length b <> nrows A)).
Proof.
  intros H. unfold cvxpy_wrapper_check_params.
  destruct (Nat.eqb (length c) (ncols Q)) eqn:Ec; simpl.
  - destruct (Nat.eqb (length b) (nrows A)) eqn:Eb; simpl.
    + apply Nat.eqb_eq in Ec, Eb. destruct H as [H|H]; contradiction.
    + apply Nat.eqb_neq in Eb. do 3 eexists. split; [reflexivity|].
      right. auto.
  - apply Nat.eqb_neq in Ec. do 3 eexists. split; [reflexivity|].
    left. auto.
Qed.

Lemma cvxpy_wrapper_check_params_passes (Q A : list (list R)) (c b : list R) :
  length c = ncols Q -> length b = nrows A ->
  cvxpy_wrapper_check_params (Q, c) (A, b) = inr tt.
Proof.
  intros Ec Eb. unfold cvxpy_wrapper_check_params.
  apply Nat.eqb_eq in Ec, Eb. now rewrite Ec, Eb.
Qed.

(** C6: when validation is enabled and the shapes mismatch (the length of c
    is not the number of columns of Q, or the length of b is not the number
    of rows of A), [run] raises a ShapeMismatch error that carries the two
    shapes, and the only call it has made is the validation itself: no
    operator was instantiated and the linear solver was not invoked. *)
Theorem run_raises_ShapeMismatch
  (self : @EqualityConstrainedQP (list (list R)) (list (list R))
            (list R) (list R) DI)
  (init_params : option (KKTSolution (list R) (list R) DI))
  (Q A : list (list R)) (c b : list R) :
  _check_params self = true ->
  length c <> ncols Q \/ length b <> nrows A ->
  exists operand operand_shape matrix_shape,
    run cvxpy_wrapper_check_params init_params (Q, c) (A, b) self
    = (inl (ShapeMismatch operand operand_shape matrix_shape), self,
       [ev_check_params (Q, c) (A, b)])
    /\ ((operand_shape = [length c] /\ matrix_shape = [nrows Q; ncols Q]
         /\ length c <> ncols Q)
        \/ (operand_shape = [length b] /\ matrix_shape = [nrows A; ncols A]
            /\ length b <> nrows A)).
Proof.
  intros Hflag Hshape.
  destruct (cvxpy_wrapper_check_params_raises Q A c b Hshape)
    as (operand & operand_shape & matrix_shape & E & Hdescr).
  exists operand, operand_shape, matrix_shape. split; [|exact Hdescr].
  rewrite run_eq. cbv zeta. now rewrite Hflag, E.
Qed.

End DenseValidation.

(** The default solver validates, and on dense arrays the vector c with
    three components does not fit the 2x2 matrix Q. *)
Lemma run_dense_c3 :
  run cvxpy_wrapper_check_params None (dense_Q, dense_c3) (dense_A, dense_b)
      dense_solver
  = (inl (ShapeMismatch "c" [3%nat] [2%nat; 2%nat]), dense_solver,
     [ev_check_params (dense_Q, dense_c3) (dense_A, dense_b)]).
Proof. rewrite run_eq. reflexivity. Qed.

(** The hypotheses of [run_raises_ShapeMismatch] hold for the default
    solver and c with three components against the 2x2 matrix Q. *)
Lemma run_raises_ShapeMismatch_dense_c3 :
  _check_params dense_solver = true
  /\ (length dense_c3 <> ncols dense_Q \/ length dense_b <> nrows dense_A)
  /\ exists operand operand_shape matrix_shape,
       run cvxpy_wrapper_check_params None (dense_Q, dense_c3)
           (dense_A, dense_b) dense_solver
       = (inl (ShapeMismatch operand operand_shape matrix_shape), dense_solver,
          [ev_check_params (dense_Q, dense_c3) (dense_A, dense_b)])
       /\ ((operand_shape = [length dense_c3]
            /\ matrix_shape = [nrows dense_Q; ncols dense_Q]
            /\ length dense_c3 <> ncols dense_Q)
           \/ (operand_shape = [length dense_b]
               /\ matrix_shape = [nrows dense_A; ncols dense_A]
               /\ length dense_b <> nrows dense_A)).
Proof.
  split; [reflexivity|]. split; [left; discriminate|].
  apply (run_raises_ShapeMismatch dense_solver None
           dense_Q dense_A dense_c3 dense_b).
  - reflexivity.
  - left. discriminate.
Defined.


(** The same on dense arrays of conforming lengths: the dense validation
    accepts the scenario, and [run] instantiates the operators, calls the
    solver once on (-c, b) and returns its pair. *)
Example run_dense_scenario :
  cvxpy_wrapper_check_params (dense_Q, dense_c) (dense_A, dense_b) = inr tt
  /\ exists primal dual_eq t,
       run cvxpy_wrapper_check_params None (dense_Q, dense_c)
           (dense_A, dense_b) dense_solver
       = (inr {| params := {| primal := primal; dual_eq := dual_eq;
                              dual_ineq := None |};
                 state := None |},
          dense_solver,
          [ev_check_params (dense_Q, dense_c) (dense_A, dense_b);
           ev_matvec_Q dense_Q; ev_matvec_A dense_A;
           ev_solve (tree_negative dense_c, dense_b) 1e-5 1000] ++ t).
Proof.
  split; [reflexivity|].
  do 3 eexists. rewrite run_eq. reflexivity.
Qed.

(** Without constraints (A has no row, b is empty) and with Q the identity,
    one application of the saddle-point operator is exact, and [run]
    returns x = -c with an empty multiplier. *)
Example run_no_constraints :
  exists step : OptStep (KKTSolution (list R) (list R) (list R)),
    outcome (run cvxpy_wrapper_check_params None (dense_identity, dense_c34)
                 (dense_no_rows, dense_empty) dense_solver)
    = inr step
    /\ primal (params step) = [-3; -4]
    /\ dual_eq (params step) = [].
Proof.
  eexists. split; [rewrite run_eq; reflexivity|].
  simpl. split; [|reflexivity].
  f_equal; [lra|]. f_equal. lra.
Qed.

(* ================================================================== *)
(** * The structure of the residual *)
(* ================================================================== *)

Section Structure.

Context {PQ PA P D DI : Type}.
Context {TP : TreeOps P} {TD : TreeOps D} {TI : TreeOps DI}.
Context {AD : Autodiff P}.
Context {SP : StructureLaws P} {SD : StructureLaws D}.
Context {GS : AutodiffStructure P}.

(** C7: for a KKT point (x, lambda, None) whose multiplier lambda lives in
    the range space of A, and a problem instance whose b lives there too,
    the value returned by the optimality function has exactly the tree
    structure of the KKT point: the stationarity residual has the structure
    of x, the feasibility residual that of lambda, and the third component
    is None. *)
Theorem optimality_fun_structure
  (matvec_Q : PQ -> LinearOperator P P) (matvec_A : PA -> LinearOperator P D)
  (x : P) (lam : D) (params_Q : PQ) (c : P) (params_A : PA) (b : D) :
  tree_structure b = tree_structure (matvec_A params_A x) ->
  tree_structure lam = tree_structure (matvec_A params_A x) ->
  tree_structure
    (_make_eq_qp_optimality_fun (DI := DI) matvec_Q matvec_A
       {| primal := x; dual_eq := lam; dual_ineq := None |}
       (params_Q, c) (params_A, b))
  = tree_structure
      ({| primal := x; dual_eq := lam; dual_ineq := None |}
       : KKTSolution P D DI).
Proof.
  intros Hb Hlam.
  unfold _make_eq_qp_optimality_fun, make_kkt_optimality_fun, vjp, eq_fun.
  simpl.
  rewrite tree_add_structure by now rewrite !grad_structure.
  rewrite grad_structure.
  rewrite tree_sub_structure by exact Hb.
  now rewrite Hlam.
Qed.

End Structure.

(** On the dense scenario of the specification b and lambda have the length
    of A x, and the residual at (x, lambda, None) has the structure of a
    2-vector, a 1-vector and None. *)
Lemma optimality_fun_structure_dense :
  tree_structure dense_b
  = tree_structure
      ((DenseLinearOperator dense_A : LinearOperator (list R) (list R))
         (primal dense_point))
  /\ tree_structure
       (_make_eq_qp_optimality_fun (DI := list R)
          DenseLinearOperator DenseLinearOperator
          dense_point (dense_Q, dense_c) (dense_A, dense_b))
     = TupleDef [LeafDef [2%nat]; LeafDef [1%nat]; NoneDef].
Proof.
  split; [reflexivity|].
  exact (@optimality_fun_structure _ _ _ _ (list R) _ _ _ _ _ _ _
           DenseLinearOperator DenseLinearOperator
           [0.5; 0.5] [-1] dense_Q dense_c dense_A dense_b
           eq_refl eq_refl).
Defined.

(* ================================================================== *)
(** * The solve and the residual agree *)
(* ================================================================== *)

Section Agreement.

Context {PQ PA P D DI : Type}.
Context {TP : TreeOps P} {TD : TreeOps D} {TI : TreeOps DI}.
Context {AD : Autodiff P}.
Context {LP : TreeLaws P} {LD : TreeLaws D} {GP : AutodiffLaws P}.

(** A user-supplied matvec that is linear and has an adjoint [ft] gives an
    operator whose joint call returns the image and the adjoint image: the
    adjoint derived by differentiation is the adjoint. *)
Lemma FunctionalLinearOperator_joint {PM : Type}
  (f : PM -> P -> D) (ft : PM -> D -> P) (params : PM) :
  (forall x y : P,
     f params (tree_add x y) = tree_add (f params x) (f params y)) ->
  (forall (t : R) (x : P),
     f params (tree_scalar_mul t x) = tree_scalar_mul t (f params x)) ->
  (forall (h : P) (v : D),
     tree_vdot (f params h) v = tree_vdot h (ft params v)) ->
  forall (x : P) (v : D),
    matvec_and_rmatvec (FunctionalLinearOperator f params) x v
    = (f params x, ft params v).
Proof.
  intros Hadd Hmul Hadj x v. simpl. f_equal.
  unfold vjp. apply grad_quadratic.
  exists (fun _ => 0). intros h t.
  rewrite Hadd, Hmul, tree_vdot_add_l, tree_vdot_scalar_mul_l, !Hadj.
  rewrite (tree_vdot_comm h). ring.
Qed.

(** A solution of the saddle-point system with right-hand side (-c, b) is a
    zero of the optimality function: the sign convention of [run] and that
    of the residual agree. *)
Lemma saddle_point_solution_is_KKT
  (matvec_Q : PQ -> LinearOperator P P) (matvec_A : PA -> LinearOperator P D)
  (params_Q : PQ) (c : P) (params_A : PA) (b : D) (u : P * D) :
  Linear (matvec_Q params_Q) -> symmetric (matvec_Q params_Q) ->
  Linear (matvec_A params_A) -> Adjoint (matvec_A params_A) ->
  fst (matvec (matvec_Q params_Q) (matvec_A params_A) u)
  = (tree_negative c, b) ->
  _make_eq_qp_optimality_fun (DI := DI) matvec_Q matvec_A
    {| primal := fst u; dual_eq := snd u; dual_ineq := None |}
    (params_Q, c) (params_A, b)
  = {| primal := tree_zeros_like (fst u);
       dual_eq := tree_zeros_like (snd u);
       dual_ineq := None |}.
Proof.
  intros LQ SQ LA AA E. destruct u as [x lam].
  rewrite matvec_eq in E. simpl in E. injection E as E1 E2.
  rewrite joint_apply in E2.
  rewrite optimality_fun_symmetric by assumption.
  simpl. unfold rmatvec. f_equal.
  - rewrite <- tree_add_assoc, (tree_add_comm c), tree_add_assoc, E1.
    rewrite tree_add_comm, tree_add_negative.
    apply tree_zeros_like_const.
  - rewrite E2, tree_sub_diag. apply tree_zeros_like_const.
Qed.

End Agreement.

(** At the scenario of the specification, (x, lambda) = ((0.5, 0.5), -1)
    solves the saddle-point system with right-hand side (-c, b). *)
Example scenario_solution_solves_system :
  fst (matvec (DenseLinearOperator scenario_Q : LinearOperator Vec2 Vec2)
              (DenseLinearOperator scenario_A : LinearOperator Vec2 R)
              (primal scenario_solution, dual_eq scenario_solution))
  = (tree_negative scenario_c, scenario_b).
Proof.
  rewrite matvec_eq. unfold scenario_b. simpl.
  f_equal; [f_equal|]; lra.
Qed.

(** There the default solver object reports an optimality error of zero. *)
Example scenario_l2_optimality_error :
  l2_optimality_error scenario_solution (scenario_Q, scenario_c)
    (scenario_A, scenario_b) scenario_solver
  = (inr 0, scenario_solver, []).
Proof.
  transitivity
    (inr (A := exn)
       (tree_l2_norm
          (_make_eq_qp_optimality_fun DenseLinearOperator DenseLinearOperator
             scenario_solution (scenario_Q, scenario_c)
             (scenario_A, scenario_b))),
     scenario_solver, @nil (@event (Vec2 * Vec2) Vec2 Vec2 R));
    [reflexivity|].
  rewrite optimality_fun_residual_at_scenario.
  unfold tree_l2_norm. simpl.
  replace (0 * 0 + (0 * 0 + (0 * 0 + 0))) with 0 by ring.
  now rewrite sqrt_0.
Qed.

(** With a user-supplied matvec for A only, no validation call is made:
    [run] goes straight to the instantiation of the operators and to the
    linear solver. *)
Example run_custom_A_skips_validation :
  calls (run cvxpy_wrapper_check_params None (dense_Q, dense_c)
             (dense_A, dense_b) custom_A_solver)
  = [ev_matvec_Q dense_Q; ev_matvec_A dense_A;
     ev_solve (tree_negative dense_c, dense_b) 1e-5 1000;
     ev_op (call_A_matvec_and_rmatvec (tree_negative dense_c) dense_b);
     ev_op (call_Q (tree_negative dense_c))].
Proof. rewrite run_eq. reflexivity. Qed.

(* ================================================================== *)
(** * Further consequences of the laws *)
(* ================================================================== *)

Section MoreTreeFacts.

Context {T : Type} {TT : TreeOps T} {TL : TreeLaws T}.

Lemma tree_add_zeros_l (x y : T) : tree_add (tree_zeros_like y) x = x.
Proof. rewrite tree_add_comm. apply tree_add_zeros. Qed.

Lemma tree_vdot_zeros_r (x z : T) : tree_vdot z (tree_zeros_like x) = 0.
Proof. rewrite tree_vdot_comm. apply tree_vdot_zeros_l. Qed.

(** x + (y - x) = y. *)
Lemma tree_add_sub_cancel (x y : T) : tree_add x (tree_sub y x) = y.
Proof.
  rewrite tree_sub_add_negative, (tree_add_comm y), tree_add_assoc.
  rewrite tree_add_negative. apply tree_add_zeros_l.
Qed.

(** b + k = b only for k = 0. *)
Lemma tree_add_cancel_zero (b k : T) :
  tree_add b k = b -> k = tree_zeros_like k.
Proof.
  intros E.
  rewrite <- (tree_add_zeros k b) at 1.
  rewrite <- (tree_add_negative b).
  rewrite tree_add_assoc, (tree_add_comm k b), E.
  rewrite tree_add_negative. apply tree_zeros_like_const.
Qed.

End MoreTreeFacts.

Lemma TreeDefinite_scalar : TreeDefinite R.
Proof.
  split. intros a b H. specialize (H 1). simpl in H. lra.
Qed.
#[export] Existing Instance TreeDefinite_scalar.

Lemma TreeDefinite_pair {A B : Type} {TA : TreeOps A} {TB : TreeOps B}
  {LA : TreeLaws A} {LB : TreeLaws B}
  {FA : TreeDefinite A} {FB : TreeDefinite B} : TreeDefinite (A * B).
Proof.
  split. intros [a1 a2] [b1 b2] H. f_equal.
  - apply tree_vdot_definite. intros h.
    specialize (H (h, tree_zeros_like a2)). simpl in H.
    rewrite !tree_vdot_zeros_l in H. lra.
  - apply tree_vdot_definite. intros h.
    specialize (H (tree_zeros_like a1, h)). simpl in H.
    rewrite !tree_vdot_zeros_l in H. lra.
Qed.
#[export] Existing Instance TreeDefinite_pair.

Lemma ZeroLeaves_scalar : ZeroLeaves R.
Proof. split. intros x. simpl. now constructor. Qed.
#[export] Existing Instance ZeroLeaves_scalar.

Lemma ZeroLeaves_pair {A B : Type} {TA : TreeOps A} {TB : TreeOps B}
  {ZA : ZeroLeaves A} {ZB : ZeroLeaves B} : ZeroLeaves (A * B).
Proof.
  split. intros x. simpl. apply Forall_app.
  split; apply tree_leaves_zeros.
Qed.
#[export] Existing Instance ZeroLeaves_pair.

(** The Euclidean norm of a vector of zeros is zero. *)
Lemma euclidean_norm_zeros (v : list R) :
  Forall (fun a => a = 0) v -> euclidean_norm v = 0.
Proof.
  intros H. unfold euclidean_norm.
  replace (sum_squares v) with 0; [apply sqrt_0|].
  induction H as [|a v Ha _ IH]; [reflexivity|].
  unfold sum_squares in *. simpl. rewrite <- IH, Ha. ring.
Qed.

(* ================================================================== *)
(** * The saddle-point operator as a linear map *)
(* ================================================================== *)

Section SaddlePointAlgebra.

Context {P D : Type}.
Context {TP : TreeOps P} {TD : TreeOps D}.
Context {LP : TreeLaws P} {LD : TreeLaws D}.

(** The adjoint action is additive, whatever points the joint calls are
    made at. *)
Lemma rmatvec_add {FP : TreeDefinite P} (A : LinearOperator P D)
  (u u1 u2 : P) (v w : D) :
  Adjoint A ->
  rmatvec A u (tree_add v w) = tree_add (rmatvec A u1 v) (rmatvec A u2 w).
Proof.
  intros AA. apply tree_vdot_definite. intros h.
  rewrite tree_vdot_add_r, <- !joint_adjoint.
  apply tree_vdot_add_r.
Qed.

Lemma rmatvec_scalar_mul {FP : TreeDefinite P} (A : LinearOperator P D)
  (u u1 : P) (t : R) (v : D) :
  Adjoint A ->
  rmatvec A u (tree_scalar_mul t v) = tree_scalar_mul t (rmatvec A u1 v).
Proof.
  intros AA. apply tree_vdot_definite. intros h.
  rewrite tree_vdot_scalar_mul_r, <- !joint_adjoint.
  apply tree_vdot_scalar_mul_r.
Qed.

(** X1: the closure [matvec] of [run] is a linear map on KKT points: it is
    additive and homogeneous, for linear operators Q and A. *)
Theorem matvec_linear {FP : TreeDefinite P}
  (Q : LinearOperator P P) (A : LinearOperator P D) :
  Linear Q -> Linear A -> Adjoint A ->
  (forall p q : P * D,
     fst (matvec Q A (tree_add p q))
     = tree_add (fst (matvec Q A p)) (fst (matvec Q A q)))
  /\ (forall (t : R) (p : P * D),
        fst (matvec Q A (tree_scalar_mul t p))
        = tree_scalar_mul t (fst (matvec Q A p))).
Proof.
  intros LQ LA AA. split.
  - intros [pu pd] [qu qd]. simpl tree_add at 1.
    rewrite !matvec_eq. simpl. rewrite !joint_apply. f_equal.
    + fold (rmatvec A (tree_add pu qu) (tree_add pd qd)).
      rewrite (@rmatvec_add FP A (tree_add pu qu) pu qu pd qd AA).
      rewrite apply_add. unfold rmatvec.
      apply tree_vdot_definite. intros h.
      rewrite !tree_vdot_add_r. ring.
    + apply apply_add.
  - intros t [pu pd]. simpl tree_scalar_mul at 1.
    rewrite !matvec_eq. simpl. rewrite !joint_apply. f_equal.
    + fold (rmatvec A (tree_scalar_mul t pu) (tree_scalar_mul t pd)).
      rewrite (@rmatvec_scalar_mul FP A (tree_scalar_mul t pu) pu t pd AA).
      rewrite apply_scalar_mul. unfold rmatvec.
      apply tree_vdot_definite. intros h.
      rewrite tree_vdot_add_r, !tree_vdot_scalar_mul_r, tree_vdot_add_r.
      ring.
    + apply apply_scalar_mul.
Qed.

(** X2: if the closure [matvec] of [run] is self-adjoint, then Q is symmetric:
    a solver for symmetric systems can only be plugged in for a symmetric
    Q. *)
Theorem matvec_self_adjoint_only_if_symmetric
  (Q : LinearOperator P P) (A : LinearOperator P D) (d : D) :
  Adjoint A ->
  (forall p q : P * D,
     tree_vdot (fst (matvec Q A p)) q = tree_vdot p (fst (matvec Q A q))) ->
  symmetric Q.
Proof.
  intros AA H x y.
  specialize (H (x, tree_zeros_like d) (y, tree_zeros_like d)).
  rewrite !matvec_eq in H. simpl in H.
  rewrite tree_vdot_add_l, tree_vdot_add_r in H.
  rewrite tree_vdot_zeros_l, tree_vdot_zeros_r in H.
  fold (rmatvec A x (tree_zeros_like d)) in H.
  fold (rmatvec A y (tree_zeros_like d)) in H.
  rewrite <- (joint_adjoint y x (tree_zeros_like d)) in H.
  rewrite (tree_vdot_comm (rmatvec A x (tree_zeros_like d)) y) in H.
  rewrite <- (joint_adjoint x y (tree_zeros_like d)) in H.
  rewrite !tree_vdot_zeros_r in H.
  lra.
Qed.

End SaddlePointAlgebra.

(* ================================================================== *)
(** * What the solve computes *)
(* ================================================================== *)

Section Minimizer.

Context {PQ PA P D : Type}.
Context {TP : TreeOps P} {TD : TreeOps D}.
Context {LP : TreeLaws P} {LD : TreeLaws D}.

(** The objective at x + h, for a symmetric and additive Q. *)
Lemma obj_fun_add (matvec_Q : PQ -> LinearOperator P P)
  (params_Q : PQ) (c x h : P) :
  Linear (matvec_Q params_Q) -> symmetric (matvec_Q params_Q) ->
  obj_fun matvec_Q (tree_add x h) (params_Q, c)
  = obj_fun matvec_Q x (params_Q, c)
    + tree_vdot (tree_add (matvec_Q params_Q x) c) h
    + 0.5 * tree_vdot h (matvec_Q params_Q h).
Proof.
  intros LQ SQ. unfold obj_fun.
  rewrite apply_add.
  rewrite !tree_vdot_add_l, !tree_vdot_add_r.
  rewrite <- (SQ x h), (tree_vdot_comm h (matvec_Q params_Q x)).
  rewrite (tree_vdot_comm h c).
  replace 0.5 with (/ 2) by lra.
  field.
Qed.

(** The equality function vanishes exactly on the feasible set. *)
Lemma eq_fun_zero_iff (matvec_A : PA -> LinearOperator P D)
  (params_A : PA) (b : D) (x : P) :
  eq_fun matvec_A x (params_A, b) = tree_zeros_like b
  <-> matvec_A params_A x = b.
Proof.
  unfold eq_fun.
  rewrite (tree_zeros_like_const b (matvec_A params_A x)).
  apply tree_sub_zeros_iff.
Qed.

(** An additive operator that takes the same value at x and at x + h
    vanishes at h. *)
Lemma apply_difference_zero (A : LinearOperator P D) (x y : P) :
  Linear A -> A x = A y ->
  A (tree_sub y x) = tree_zeros_like (A (tree_sub y x)).
Proof.
  intros LA E.
  apply tree_add_cancel_zero with (b := A x).
  rewrite <- apply_add, tree_add_sub_cancel. now symmetry.
Qed.

(** A solution (x, lambda) of the saddle-point system with the right-hand
    side (-c, b) that [run] forms is feasible and minimises the objective
    over the feasible set, when Q is symmetric positive semidefinite. *)
Lemma saddle_point_solution_minimizes
  (matvec_Q : PQ -> LinearOperator P P) (matvec_A : PA -> LinearOperator P D)
  (params_Q : PQ) (c : P) (params_A : PA) (b : D) (u : P * D) :
  Linear (matvec_Q params_Q) -> symmetric (matvec_Q params_Q) ->
  positive_semidefinite (matvec_Q params_Q) ->
  Linear (matvec_A params_A) -> Adjoint (matvec_A params_A) ->
  fst (matvec (matvec_Q params_Q) (matvec_A params_A) u)
  = (tree_negative c, b) ->
  eq_fun matvec_A (fst u) (params_A, b) = tree_zeros_like b
  /\ forall y : P,
       eq_fun matvec_A y (params_A, b) = tree_zeros_like b ->
       obj_fun matvec_Q (fst u) (params_Q, c)
       <= obj_fun matvec_Q y (params_Q, c).
Proof.
  intros LQ SQ PSD LA AA E. destruct u as [x lam].
  rewrite matvec_eq in E. simpl in E. injection E as E1 E2.
  rewrite joint_apply in E2. cbn [fst].
  split; [now apply eq_fun_zero_iff|].
  intros y Hy. apply eq_fun_zero_iff in Hy.
  pose (h := tree_sub y x).
  assert (Ah : matvec_A params_A h = tree_zeros_like (matvec_A params_A h)).
  { apply apply_difference_zero; [exact LA|]. now rewrite E2, Hy. }
  rewrite <- (tree_add_sub_cancel x y). fold h.
  rewrite (@obj_fun_add matvec_Q params_Q c x h LQ SQ).
  assert (G : tree_vdot (tree_add (matvec_Q params_Q x) c) h = 0).
  { rewrite tree_vdot_add_l.
    assert (N : tree_vdot (tree_negative c) h
                = tree_vdot (matvec_Q params_Q x) h).
    { rewrite <- E1, tree_vdot_add_l.
      fold (rmatvec (matvec_A params_A) x lam).
      rewrite (tree_vdot_comm (rmatvec (matvec_A params_A) x lam) h).
      rewrite <- (joint_adjoint x h lam), Ah, tree_vdot_zeros_l. ring. }
    rewrite tree_vdot_negative_l in N. lra. }
  rewrite G. specialize (PSD h). lra.
Qed.

(** X3: two solutions of the saddle-point system with the same right-hand side
    have the same primal component, when Q is definite on the kernel of
    A. *)
Theorem saddle_point_primal_unique
  (Q : LinearOperator P P) (A : LinearOperator P D) (u1 u2 : P * D) :
  Linear Q -> Linear A -> Adjoint A -> definite_on_kernel Q A ->
  fst (matvec Q A u1) = fst (matvec Q A u2) ->
  fst u1 = fst u2.
Proof.
  intros LQ LA AA PD E. destruct u1 as [x1 l1], u2 as [x2 l2].
  rewrite !matvec_eq in E. simpl in E. injection E as E1 E2.
  rewrite !joint_apply in E2. simpl.
  pose (h := tree_sub x2 x1).
  assert (Ah : A h = tree_zeros_like (A h)).
  { apply apply_difference_zero; assumption. }
  assert (Qh : tree_vdot h (Q h) = 0).
  { apply (f_equal (fun z => tree_vdot z h)) in E1.
    fold (rmatvec A x1 l1) in E1. fold (rmatvec A x2 l2) in E1.
    rewrite !tree_vdot_add_l in E1.
    rewrite (tree_vdot_comm (rmatvec A x1 l1) h) in E1.
    rewrite (tree_vdot_comm (rmatvec A x2 l2) h) in E1.
    rewrite <- !joint_adjoint, Ah, !tree_vdot_zeros_l in E1.
    assert (X : Q x2 = tree_add (Q x1) (Q h)).
    { rewrite <- apply_add. unfold h. now rewrite tree_add_sub_cancel. }
    rewrite X, tree_vdot_add_l in E1.
    rewrite (tree_vdot_comm h). lra. }
  specialize (PD h Ah Qh).
  rewrite <- (tree_add_sub_cancel x1 x2). fold h.
  rewrite PD. symmetry. apply tree_add_zeros.
Qed.

(** X4: the derivative of the objective at x in the direction h is
    <(Q x + Q^T x) / 2 + c, h>; for a symmetric Q it is <Q x + c, h>. *)
Theorem obj_fun_directional_derivative
  (matvec_Q : PQ -> LinearOperator P P) (params_Q : PQ) (c x h : P) :
  Linear (matvec_Q params_Q) -> Adjoint (matvec_Q params_Q) ->
  derivable_pt_lim
    (fun t => obj_fun matvec_Q (tree_add x (tree_scalar_mul t h)) (params_Q, c))
    0
    (tree_vdot
       (tree_add
          (tree_scalar_mul 0.5
             (tree_add (matvec_Q params_Q x)
                       (rmatvec (matvec_Q params_Q) x x)))
          c)
       h)
  /\ (symmetric (matvec_Q params_Q) ->
      derivable_pt_lim
        (fun t =>
           obj_fun matvec_Q (tree_add x (tree_scalar_mul t h)) (params_Q, c))
        0
        (tree_vdot (tree_add (matvec_Q params_Q x) c) h)).
Proof.
  intros LQ AQ. split.
  - apply (@quadratic_at_directional_derivative P TP
             (fun y => obj_fun matvec_Q y (params_Q, c))).
    now apply obj_fun_quadratic_general.
  - intros SQ.
    apply (@quadratic_at_directional_derivative P TP
             (fun y => obj_fun matvec_Q y (params_Q, c))).
    now apply obj_fun_quadratic.
Qed.

End Minimizer.

(* ================================================================== *)
(** * What [run] returns and what it reads *)
(* ================================================================== *)

Section RunProperties.

Context {PQ PA P D DI : Type}.
Context {TP : TreeOps P} {TD : TreeOps D} {TI : TreeOps DI}.
Context {AD : Autodiff P}.
Context {DQ : Dense PQ P P} {DA : Dense PA P D}.

(** X6: whatever error the validation function raises, [run] raises that same
    error, leaves the solver object as it was, and has made no call but the
    validation. *)
Theorem run_propagates_validation_error
  (check_params : PQ * P -> PA * D -> exn + unit)
  (self : EqualityConstrainedQP (DI := DI))
  (init_params : option (KKTSolution P D DI))
  (params_obj : PQ * P) (params_eq : PA * D) (e : exn) :
  _check_params self = true ->
  check_params params_obj params_eq = inl e ->
  run check_params init_params params_obj params_eq self
  = (inl e, self, [ev_check_params params_obj params_eq]).
Proof.
  intros Hflag He.
  destruct params_obj as [params_Q c], params_eq as [params_A b].
  rewrite run_eq. cbv zeta. now rewrite Hflag, He.
Qed.

(** X7: [run] reads only the attributes _check_params, matvec_Q, matvec_A,
    solve, tol and maxiter: on two solver objects that agree on these it
    returns the same result and makes the same calls, whatever their jit,
    implicit_diff_solve and optimality_fun attributes are. *)
Theorem run_reads_only
  (check_params : PQ * P -> PA * D -> exn + unit)
  (self self' : EqualityConstrainedQP (DI := DI))
  (init_params : option (KKTSolution P D DI))
  (params_obj : PQ * P) (params_eq : PA * D) :
  _check_params self = _check_params self' ->
  matvec_Q self = matvec_Q self' ->
  matvec_A self = matvec_A self' ->
  solve self = solve self' ->
  tol self = tol self' ->
  maxiter self = maxiter self' ->
  outcome (run check_params init_params params_obj params_eq self)
  = outcome (run check_params init_params params_obj params_eq self')
  /\ calls (run check_params init_params params_obj params_eq self)
     = calls (run check_params init_params params_obj params_eq self').
Proof.
  intros Ef EQ EA Es Et Em.
  destruct params_obj as [params_Q c], params_eq as [params_A b].
  rewrite !run_eq. cbv zeta. rewrite Ef, EQ, EA, Es, Et, Em.
  destruct (_check_params self'); [|split; reflexivity].
  destruct (check_params (params_Q, c) (params_A, b)); split; reflexivity.
Qed.

(** X5: when the linear solver returns a solution of the saddle-point system,
    [run] returns a primal point that satisfies the equality constraint and
    minimises the objective 0.5 <x, Q x> + <c, x> over the feasible set,
    for a symmetric positive semidefinite Q. *)
Theorem run_returns_minimizer {LP : TreeLaws P} {LD : TreeLaws D}
  (check_params : PQ * P -> PA * D -> exn + unit)
  (self : EqualityConstrainedQP (DI := DI))
  (init_params : option (KKTSolution P D DI))
  (params_Q : PQ) (c : P) (params_A : PA) (b : D) :
  (_check_params self = true ->
   check_params (params_Q, c) (params_A, b) = inr tt) ->
  Linear (matvec_Q self params_Q) -> symmetric (matvec_Q self params_Q) ->
  positive_semidefinite (matvec_Q self params_Q) ->
  Linear (matvec_A self params_A) -> Adjoint (matvec_A self params_A) ->
  fst (matvec (matvec_Q self params_Q) (matvec_A self params_A)
         (fst (solve self
                 (matvec (matvec_Q self params_Q) (matvec_A self params_A))
                 (tree_negative c, b) (tol self) (maxiter self))))
  = (tree_negative c, b) ->
  exists step : OptStep (KKTSolution P D DI),
    outcome (run check_params init_params (params_Q, c) (params_A, b) self)
    = inr step
    /\ eq_fun (matvec_A self) (primal (params step)) (params_A, b)
       = tree_zeros_like b
    /\ forall y : P,
         eq_fun (matvec_A self) y (params_A, b) = tree_zeros_like b ->
         obj_fun (matvec_Q self) (primal (params step)) (params_Q, c)
         <= obj_fun (matvec_Q self) y (params_Q, c).
Proof.
  intros Hcheck LQ SQ PSD LA AA Hsol.
  eexists. split.
  - rewrite run_eq. cbv zeta.
    destruct (_check_params self); [rewrite (Hcheck eq_refl)|]; reflexivity.
  - cbn [params primal].
    exact (@saddle_point_solution_minimizes PQ PA P D TP TD LP LD
             (matvec_Q self) (matvec_A self) params_Q c params_A b _
             LQ SQ PSD LA AA Hsol).
Qed.

(** X8: when the linear solver returns a solution of the saddle-point system,
    the optimality error of what [run] returns is zero, for a symmetric
    Q. *)
Theorem run_exact_zero_error {LP : TreeLaws P} {LD : TreeLaws D}
  {GP : AutodiffLaws P} {ZP : ZeroLeaves P} {ZD : ZeroLeaves D}
  (check_params : PQ * P -> PA * D -> exn + unit)
  (fields : dataclass_fields)
  (init_params : option (KKTSolution P D DI))
  (params_Q : PQ) (c : P) (params_A : PA) (b : D) :
  let self := __post_init__ (DI := DI) fields in
  (_check_params self = true ->
   check_params (params_Q, c) (params_A, b) = inr tt) ->
  Linear (matvec_Q self params_Q) -> symmetric (matvec_Q self params_Q) ->
  Linear (matvec_A self params_A) -> Adjoint (matvec_A self params_A) ->
  fst (matvec (matvec_Q self params_Q) (matvec_A self params_A)
         (fst (solve self
                 (matvec (matvec_Q self params_Q) (matvec_A self params_A))
                 (tree_negative c, b) (tol self) (maxiter self))))
  = (tree_negative c, b) ->
  exists step : OptStep (KKTSolution P D DI),
    outcome (run check_params init_params (params_Q, c) (params_A, b) self)
    = inr step
    /\ l2_optimality_error (params step) (params_Q, c) (params_A, b) self
       = (inr 0, self, []).
Proof.
  intros self Hcheck LQ SQ LA AA Hsol.
  eexists. split.
  - rewrite run_eq. cbv zeta.
    destruct (_check_params self); [rewrite (Hcheck eq_refl)|]; reflexivity.
  - cbn [params].
    change (l2_optimality_error ?p ?po ?pe self)
      with (inr (A := exn)
              (tree_l2_norm
                 (_make_eq_qp_optimality_fun (matvec_Q self) (matvec_A self)
                    p po pe)),
            self, @nil (@event PQ PA P D)).
    rewrite (@saddle_point_solution_is_KKT PQ PA P D DI TP TD AD LP LD GP
               (matvec_Q self) (matvec_A self) params_Q c params_A b _
               LQ SQ LA AA Hsol).
    do 3 f_equal.
    apply euclidean_norm_zeros. simpl.
    rewrite app_nil_r. apply Forall_app.
    split; apply tree_leaves_zeros.
Qed.

End RunProperties.

(* ================================================================== *)
(** * The properties above on concrete problems *)
(* ================================================================== *)

(** On the scenario of the specification the operators are linear, and the
    saddle-point operator is additive on ((1, 2), 3) and ((4, 5), 6). *)
Lemma matvec_linear_scenario :
  Linear (DenseLinearOperator scenario_Q : LinearOperator Vec2 Vec2)
  /\ fst (matvec (DenseLinearOperator scenario_Q : LinearOperator Vec2 Vec2)
                 (DenseLinearOperator scenario_A : LinearOperator Vec2 R)
                 (tree_add ((1, 2), 3) ((4, 5), 6)))
     = tree_add
         (fst (matvec (DenseLinearOperator scenario_Q : LinearOperator Vec2 Vec2)
                      (DenseLinearOperator scenario_A : LinearOperator Vec2 R)
                      ((1, 2), 3)))
         (fst (matvec (DenseLinearOperator scenario_Q : LinearOperator Vec2 Vec2)
                      (DenseLinearOperator scenario_A : LinearOperator Vec2 R)
                      ((4, 5), 6))).
Proof.
  split; [exact (Linear_two_rows scenario_Q)|].
  destruct (matvec_linear
              (Q := DenseLinearOperator scenario_Q : LinearOperator Vec2 Vec2)
              (A := DenseLinearOperator scenario_A : LinearOperator Vec2 R)
              (Linear_two_rows scenario_Q) (Linear_row scenario_A)
              (Adjoint_row scenario_A)) as [Hadd _].
  apply Hadd.
Defined.

(** The saddle-point operator of the scenario is self-adjoint. *)
Lemma scenario_matvec_self_adjoint (p q : Vec2 * R) :
  tree_vdot
    (fst (matvec (DenseLinearOperator scenario_Q : LinearOperator Vec2 Vec2)
                 (DenseLinearOperator scenario_A : LinearOperator Vec2 R) p)) q
  = tree_vdot p
      (fst (matvec (DenseLinearOperator scenario_Q : LinearOperator Vec2 Vec2)
                   (DenseLinearOperator scenario_A : LinearOperator Vec2 R) q)).
Proof.
  destruct p as [[p1 p2] pd], q as [[q1 q2] qd].
  rewrite !matvec_eq. simpl. ring.
Qed.

(** The hypothesis of [matvec_self_adjoint_only_if_symmetric] holds on the
    scenario of the specification, and so does its conclusion. *)
Lemma matvec_self_adjoint_only_if_symmetric_scenario :
  symmetric (DenseLinearOperator scenario_Q : LinearOperator Vec2 Vec2).
Proof.
  exact (matvec_self_adjoint_only_if_symmetric
           (DenseLinearOperator scenario_Q : LinearOperator Vec2 Vec2)
           (A := DenseLinearOperator scenario_A : LinearOperator Vec2 R)
           0 (Adjoint_row scenario_A) scenario_matvec_self_adjoint).
Defined.

(** Q = 2 I is definite on the kernel of A = [1 1]. *)
Lemma scenario_definite_on_kernel :
  definite_on_kernel
    (DenseLinearOperator scenario_Q : LinearOperator Vec2 Vec2)
    (DenseLinearOperator scenario_A : LinearOperator Vec2 R).
Proof.
  intros [h1 h2] _ H. simpl in *.
  assert (h1 = 0 /\ h2 = 0) as [-> ->] by (split; nra).
  reflexivity.
Qed.

(** Two ways of writing the solution of the scenario have the same image
    under the saddle-point operator. *)
Lemma scenario_same_image :
  fst (matvec (DenseLinearOperator scenario_Q : LinearOperator Vec2 Vec2)
              (DenseLinearOperator scenario_A : LinearOperator Vec2 R)
              ((0.5, 0.5), -1))
  = fst (matvec (DenseLinearOperator scenario_Q : LinearOperator Vec2 Vec2)
                (DenseLinearOperator scenario_A : LinearOperator Vec2 R)
                ((1 / 2, 1 - 1 / 2), 1 - 2)).
Proof. rewrite !matvec_eq. simpl. f_equal; [f_equal|]; lra. Qed.

(** On the scenario of the specification Q is definite on the kernel of A,
    and two KKT points with the same image have the same primal
    component. *)
Lemma saddle_point_primal_unique_scenario :
  definite_on_kernel
    (DenseLinearOperator scenario_Q : LinearOperator Vec2 Vec2)
    (DenseLinearOperator scenario_A : LinearOperator Vec2 R)
  /\ fst (((0.5, 0.5), -1) : Vec2 * R)
     = fst (((1 / 2, 1 - 1 / 2), 1 - 2) : Vec2 * R).
Proof.
  split; [exact scenario_definite_on_kernel|].
  apply (saddle_point_primal_unique
           (Q := DenseLinearOperator scenario_Q : LinearOperator Vec2 Vec2)
           (A := DenseLinearOperator scenario_A : LinearOperator Vec2 R)
           ((0.5, 0.5), -1) ((1 / 2, 1 - 1 / 2), 1 - 2)
           (Linear_two_rows scenario_Q) (Linear_row scenario_A)
           (Adjoint_row scenario_A) scenario_definite_on_kernel
           scenario_same_image).
Defined.

(** For the non-symmetric Q = [[1, 2], [0, 1]] and c = 0, the derivative of
    the objective at x = (0, 1) in the direction (1, 0) is 1, the first
    component of (Q + Q^T) x / 2, and not 2, the first component of Q x. *)
Lemma obj_fun_directional_derivative_skew :
  derivable_pt_lim
    (fun t =>
       obj_fun (DenseLinearOperator : Vec2 * Vec2 -> LinearOperator Vec2 Vec2)
         (tree_add (0, 1) (tree_scalar_mul t (1, 0))) (skew_Q, scenario_c))
    0 1.
Proof.
  destruct (@obj_fun_directional_derivative (Vec2 * Vec2) Vec2 _ _
              DenseLinearOperator skew_Q scenario_c (0, 1) (1, 0)
              (Linear_two_rows skew_Q) (Adjoint_two_rows skew_Q)) as [H _].
  match type of H with
  | derivable_pt_lim _ _ ?v =>
      assert (E : v = 1) by (unfold rmatvec; simpl; lra)
  end.
  rewrite E in H. exact H.
Defined.

(** The default solver on dense arrays validates, and for c with three
    components the validation raises; [run] raises the same error. *)
Lemma run_propagates_validation_error_dense_c3 :
  cvxpy_wrapper_check_params (dense_Q, dense_c3) (dense_A, dense_b)
  = inl (ShapeMismatch "c" [3%nat] [2%nat; 2%nat])
  /\ run cvxpy_wrapper_check_params None (dense_Q, dense_c3)
         (dense_A, dense_b) dense_solver
     = (inl (ShapeMismatch "c" [3%nat] [2%nat; 2%nat]), dense_solver,
        [ev_check_params (dense_Q, dense_c3) (dense_A, dense_b)]).
Proof.
  split; [reflexivity|].
  apply (run_propagates_validation_error cvxpy_wrapper_check_params
           dense_solver None (dense_Q, dense_c3) (dense_A, dense_b)).
  - reflexivity.
  - reflexivity.
Defined.

(** Two solver objects that differ in jit and implicit_diff_solve only give
    the same result on the dense scenario. *)
Lemma run_reads_only_dense :
  jit dense_solver <> jit dense_solver_no_jit
  /\ outcome (run cvxpy_wrapper_check_params None (dense_Q, dense_c)
                  (dense_A, dense_b) dense_solver)
     = outcome (run cvxpy_wrapper_check_params None (dense_Q, dense_c)
                    (dense_A, dense_b) dense_solver_no_jit).
Proof.
  split; [discriminate|].
  apply (run_reads_only cvxpy_wrapper_check_params
           dense_solver dense_solver_no_jit None
           (dense_Q, dense_c) (dense_A, dense_b));
    reflexivity.
Defined.

(** The operators of the one-variable problem. *)
Lemma swap_Q_symmetric :
  symmetric (matvec_Q swap_solver swap_Q).
Proof. intros x y. simpl. ring. Qed.

(** Applying the saddle-point operator of the one-variable problem once to
    the right-hand side gives a solution of the system. *)
Lemma swap_solver_exact :
  fst (matvec (matvec_Q swap_solver swap_Q) (matvec_A swap_solver swap_A)
         (fst (solve swap_solver
                 (matvec (matvec_Q swap_solver swap_Q)
                         (matvec_A swap_solver swap_A))
                 (tree_negative swap_c, swap_b)
                 (tol swap_solver) (maxiter swap_solver))))
  = (tree_negative swap_c, swap_b).
Proof.
  simpl. unfold swap_Q, swap_A, swap_c, swap_b. f_equal; lra.
Qed.

(** The operators of the two-variable problem with Q = diag(0, 1) and
    A = [1 0]. *)
Lemma proj_Q_symmetric :
  symmetric (matvec_Q scenario_solver proj_Q).
Proof. intros [x1 x2] [y1 y2]. simpl. ring. Qed.

Lemma proj_Q_positive_semidefinite :
  positive_semidefinite (matvec_Q scenario_solver proj_Q).
Proof. intros [h1 h2]. simpl. nra. Qed.

(** Its saddle-point operator is an involution on the right-hand side:
    applying it once solves the system. *)
Lemma proj_solver_exact :
  fst (matvec (matvec_Q scenario_solver proj_Q) (matvec_A scenario_solver proj_A)
         (fst (solve scenario_solver
                 (matvec (matvec_Q scenario_solver proj_Q)
                         (matvec_A scenario_solver proj_A))
                 (tree_negative proj_c, proj_b)
                 (tol scenario_solver) (maxiter scenario_solver))))
  = (tree_negative proj_c, proj_b).
Proof.
  simpl. unfold proj_b. f_equal; [f_equal|]; lra.
Qed.

(** The feasible set of that problem is the line x1 = 2, and the objective
    is not constant on it: (2, 0) and (2, -4) are both feasible, with
    objective values 6 and -2. *)
Lemma proj_problem_not_trivial :
  eq_fun (matvec_A scenario_solver) (2, 0) (proj_A, proj_b)
  = tree_zeros_like proj_b
  /\ eq_fun (matvec_A scenario_solver) (2, -4) (proj_A, proj_b)
     = tree_zeros_like proj_b
  /\ obj_fun (matvec_Q scenario_solver) (2, 0) (proj_Q, proj_c) = 6
  /\ obj_fun (matvec_Q scenario_solver) (2, -4) (proj_Q, proj_c) = -2.
Proof.
  unfold proj_b. simpl. repeat split; lra.
Qed.

(** On the two-variable problem (minimise 0.5 x2^2 + 3 x1 + 4 x2 subject
    to x1 = 2) Q is symmetric positive semidefinite and not zero, the
    linear solver is exact, and [run] returns the point (2, -4), which is
    feasible and minimises the objective over the line x1 = 2. *)
Lemma run_returns_minimizer_projection :
  exists step : OptStep (KKTSolution Vec2 R R),
    outcome (run accept_params None (proj_Q, proj_c) (proj_A, proj_b)
                 scenario_solver)
    = inr step
    /\ primal (params step) = (2, -4)
    /\ eq_fun (matvec_A scenario_solver) (primal (params step))
              (proj_A, proj_b)
       = tree_zeros_like proj_b
    /\ forall y : Vec2,
         eq_fun (matvec_A scenario_solver) y (proj_A, proj_b)
         = tree_zeros_like proj_b ->
         obj_fun (matvec_Q scenario_solver) (primal (params step))
                 (proj_Q, proj_c)
         <= obj_fun (matvec_Q scenario_solver) y (proj_Q, proj_c).
Proof.
  destruct (run_returns_minimizer accept_params scenario_solver None
              proj_Q proj_c proj_A (b := proj_b)
              (fun _ => eq_refl)
              (Linear_two_rows proj_Q) proj_Q_symmetric
              proj_Q_positive_semidefinite
              (Linear_row proj_A) (Adjoint_row proj_A) proj_solver_exact)
    as (step & Hrun & Hfeasible & Hmin).
  exists step. repeat split; try assumption.
  rewrite run_eq in Hrun. injection Hrun as <-.
  unfold proj_b. simpl. f_equal; lra.
Defined.

(** On the one-variable problem the optimality error of what [run] returns
    is zero. *)
Lemma run_exact_zero_error_swap :
  exists step : OptStep (KKTSolution R R R),
    outcome (run accept_params None (swap_Q, swap_c) (swap_A, swap_b)
                 swap_solver)
    = inr step
    /\ l2_optimality_error (params step) (swap_Q, swap_c) (swap_A, swap_b)
         swap_solver
       = (inr 0, swap_solver, []).
Proof.
  apply (run_exact_zero_error accept_params
           (default_fields solve_one_application) None
           swap_Q swap_c swap_A (b := swap_b)).
  - reflexivity.
  - exact (Linear_row swap_Q).
  - exact swap_Q_symmetric.
  - exact (Linear_row swap_A).
  - exact (Adjoint_row swap_A).
  - exact swap_solver_exact.
Defined.
